(** * Campus Connect: the matching engine of [app.py]

    A shallow embedding of the scoring and ranking code of [app.py]
    ([jaccard_similarity], [match_score], the [User] accessors and the
    body of [match_for_user]) together with the properties the design
    document states about it.

    Conventions.
    - Python values that reach the engine are the values [json.loads]
      produces; they are the inductive type [json].
    - A Python function that can raise returns [option]: [None] is an
      uncaught exception (an HTTP 500 in the running service).
    - A Python [float] is a finite binary64 number, represented by the
      rational it denotes; every arithmetic operation rounds its exact
      result with [rnd] (round to nearest, ties to even).
    - A Python [set] of strings is a [gset string]. *)

From stdpp Require Import gmap strings list sorting.
From Stdlib Require Import ZArith QArith Qround Qabs Qpower Lia Lqa Ascii.
From Stdlib Require Floats.SpecFloat.

#[local] Set Warnings "-register-all,-clear-no-such-hyp".

(** ** Binary64 arithmetic *)

Module Binary64.

Local Open Scope Q_scope.

(** A finite double, by its exact value. *)
Definition float := Q.

Definition pow2 (e : Z) : Q := 2 ^ e.

(** [floor (log2 q)] for a positive rational [q]. *)
Definition ilog2 (q : Q) : Z :=
  let k := (Z.log2 (Qnum q) - Z.log2 (Zpos (Qden q)))%Z in
  if Qle_bool (pow2 k) q then k else (k - 1)%Z.

(** Nearest integer, a tie going to the even neighbour.  This is also
    Python 3's [round(x)] on a float. *)
Definition round_half_even (q : Q) : Z :=
  let f := Qfloor q in
  match Qcompare (q - inject_Z f) (1 # 2) with
  | Lt => f
  | Gt => (f + 1)%Z
  | Eq => if Z.even f then f else (f + 1)%Z
  end.

(** Exponent of the unit in the last place of the double nearest to [q]:
    53 bits of precision, subnormals from [2^-1074]. *)
Definition exponent (q : Q) : Z := Z.max (ilog2 (Qabs q) - 52) (-1074).

(** The double nearest to [q].  Results of magnitude [2^1024] and more
    (which IEEE arithmetic turns into infinities) are outside this model;
    [finite64] is the range in which [rnd] is the hardware rounding. *)
Definition rnd (q : Q) : float :=
  let e := exponent q in
  Qred (inject_Z (round_half_even (q / pow2 e)) * pow2 e).

Definition finite64 (x : Q) : Prop := Qabs x < pow2 1024.

(** [x + y] and [x * y] on floats. *)
Definition fadd (x y : float) : float := rnd (x + y).
Definition fmul (x y : float) : float := rnd (x * y).

(** [a / b] on Python ints: the correctly rounded quotient. *)
Definition int_truediv (a b : Z) : float := rnd (inject_Z a / inject_Z b).

(** [float(n)] for a Python int, as in [x * 100]. *)
Definition float_of_int (n : Z) : float := rnd (inject_Z n).

(** The value of a [spec_float] of the standard library, to compare the
    operations above with its IEEE 754 reference implementation. *)
Definition SF2Q (f : SpecFloat.spec_float) : option Q :=
  match f with
  | SpecFloat.S754_zero _ => Some 0
  | SpecFloat.S754_finite s m e =>
      Some (Qred ((if s then -1 else 1) * inject_Z (Zpos m) * pow2 e))
  | _ => None
  end.

End Binary64.

(** ** Python values *)

(** The values [json.loads] returns, which are also the values a request
    body carries: [None], [bool], numbers, [str], [list] and [dict].  A
    number is kept by its value; the engine only ever asks whether it is
    zero. *)
Inductive json : Type :=
| JNull
| JBool (b : bool)
| JNum (x : Q)
| JStr (s : string)
| JList (l : list json)
| JObj (kvs : list (string * json)).

(** Python truth value: [None], [False], zero and empty containers are
    false. *)
Definition truthy (v : json) : bool :=
  match v with
  | JNull => false
  | JBool b => b
  | JNum x => negb (Qeq_bool x 0)
  | JStr s => negb (String.eqb s "")
  | JList l => negb (Nat.eqb (length l) 0)
  | JObj kvs => negb (Nat.eqb (length kvs) 0)
  end.

(** [a or b] *)
Definition py_or (a b : json) : json := if truthy a then a else b.

(** A Python list of strings. *)
Definition strs (l : list string) : json := JList (JStr <$> l).

Definition as_str (v : json) : option string :=
  match v with JStr s => Some s | _ => None end.

Definition is_str_list (v : json) : bool :=
  match v with
  | JList l => forallb (fun x => bool_decide (is_Some (as_str x))) l
  | _ => false
  end.

(** What the engine uses of Python's [str]: [str.lower], and iteration
    over a string, which yields its characters as strings.  Both depend
    on Unicode tables that are no part of the program, so they are an
    interface; [ascii_str] below is the instance for ASCII text. *)
Class StrOps := {
  str_lower : string -> string;
  str_iter : string -> list string
}.

Definition ascii_lower (c : ascii) : ascii :=
  let n := nat_of_ascii c in
  if (65 <=? n)%nat && (n <=? 90)%nat then ascii_of_nat (n + 32) else c.

Fixpoint string_map (f : ascii -> ascii) (s : string) : string :=
  match s with
  | EmptyString => EmptyString
  | String c s' => String (f c) (string_map f s')
  end.

Fixpoint string_chars (s : string) : list string :=
  match s with
  | EmptyString => []
  | String c s' => String c EmptyString :: string_chars s'
  end.

#[export] Instance ascii_str : StrOps := {|
  str_lower := string_map ascii_lower;
  str_iter := string_chars
|}.

(** Numbers as [min] and [round] see them: [min(score, 100)] returns
    either the float [score] or the int [100]. *)
Inductive number : Type :=
| PyInt (n : Z)
| PyFloat (x : Binary64.float).

Definition num_value (a : number) : Q :=
  match a with
  | PyInt n => inject_Z n
  | PyFloat x => x
  end.

(** [min(a, b)]: [b] when [b < a], else [a]. *)
Definition py_min (a b : number) : number :=
  if Qle_bool (num_value a) (num_value b) then a else b.

(** [round(a)] without [ndigits]: the int itself, or the float rounded
    half to even. *)
Definition py_round (a : number) : Z :=
  match a with
  | PyInt n => n
  | PyFloat x => Binary64.round_half_even x
  end.

(** [l[:stop]] *)
Definition py_slice_to {A} (l : list A) (stop : Z) : list A :=
  if (0 <=? stop)%Z then take (Z.to_nat stop) l
  else take (Z.to_nat (Z.of_nat (length l) + stop)) l.

(** ** The [User] model *)

(** A [Text] column that holds JSON, by what [json.loads] makes of its
    content.  [json.dumps v] is a text that [json.loads] decodes to [v]
    again, so a column written by the setters is [JsonText v]. *)
Inductive column : Type :=
| SqlNull                (* NULL, read as None *)
| EmptyText              (* the empty string *)
| BadText                (* a non-empty text that json.loads rejects *)
| JsonText (v : json).   (* a text that json.loads decodes to v *)

Record User : Type := {
  user_id : Z;
  name : string;
  email : string;
  password_hash : string;
  year : option string;
  department : option string;
  bio : option string;
  tags_json : column;
  interests_json : column;
  personality : option string
}.

(** [json.loads(c or "[]")]; [None] when it raises. *)
Definition loads_or_empty (c : column) : option json :=
  match c with
  | SqlNull | EmptyText => Some (JList [])
  | BadText => None
  | JsonText v => Some v
  end.

(** The [tags] property: [try: return json.loads(self.tags_json or "[]")]
    [except Exception: return []]. *)
Definition tags (u : User) : json :=
  match loads_or_empty (tags_json u) with
  | Some v => v
  | None => JList []
  end.

(** The [tags] setter: [self.tags_json = json.dumps(v or [])]. *)
Definition set_tags (u : User) (v : json) : User :=
  {| user_id := user_id u; name := name u; email := email u;
     password_hash := password_hash u; year := year u;
     department := department u; bio := bio u;
     tags_json := JsonText (py_or v (JList []));
     interests_json := interests_json u;
     personality := personality u |}.

Definition interests (u : User) : json :=
  match loads_or_empty (interests_json u) with
  | Some v => v
  | None => JList []
  end.

Definition set_interests (u : User) (v : json) : User :=
  {| user_id := user_id u; name := name u; email := email u;
     password_hash := password_hash u; year := year u;
     department := department u; bio := bio u;
     tags_json := tags_json u;
     interests_json := JsonText (py_or v (JList []));
     personality := personality u |}.

(** The dict [to_public_dict] returns. *)
Record PublicUser : Type := {
  pub_id : Z;
  pub_name : string;
  pub_email : string;
  pub_year : option string;
  pub_department : option string;
  pub_bio : option string;
  pub_tags : json;
  pub_interests : json;
  pub_personality : option string
}.

Definition to_public_dict (u : User) : PublicUser :=
  {| pub_id := user_id u; pub_name := name u; pub_email := email u;
     pub_year := year u; pub_department := department u; pub_bio := bio u;
     pub_tags := tags u; pub_interests := interests u;
     pub_personality := personality u |}.

(** A stored profile whose two columns read back as lists of strings,
    which is what the annotations [List[str]] promise. *)
Definition well_typed (u : User) : bool :=
  is_str_list (tags u) && is_str_list (interests u).

(** ** Matching *)

Section Matching.

Context `{StrOps}.

Import Binary64.

(** The items of [map(str.lower, v)]; [None] is the [TypeError] of
    iterating a value that is no iterable, or of [str.lower] on an item
    that is no string.  A [dict] iterates over its keys. *)
Definition lowered (v : json) : option (list string) :=
  match v with
  | JList l => mapM (fun x => str_lower <$> as_str x) l
  | JStr s => Some (str_lower <$> str_iter s)
  | JObj kvs => Some ((fun kv => str_lower (fst kv)) <$> kvs)
  | _ => None
  end.

(** [set(map(str.lower, a or []))] *)
Definition lowered_set (a : json) : option (gset string) :=
  list_to_set <$> lowered (py_or a (JList [])).

Definition jaccard_similarity (a b : json) : option float :=
  sa ← lowered_set a;
  sb ← lowered_set b;
  if bool_decide (sa = ∅) && bool_decide (sb = ∅) then Some 0
  else
    let inter := Z.of_nat (size (sa ∩ sb)) in
    let union := Z.of_nat (size (sa ∪ sb)) in
    Some (if (union =? 0)%Z then 0 else int_truediv inter union).

(** Truth value of an optional string: [None] and [""] are false. *)
Definition str_truthy (p : option string) : bool :=
  match p with
  | Some s => negb (String.eqb s "")
  | None => false
  end.

Definition opt_str_eqb (p q : option string) : bool :=
  match p, q with
  | Some s, Some t => String.eqb s t
  | None, None => true
  | _, _ => false
  end.

(** The float literals of [match_score]. *)
Definition lit_0_6 : float := rnd (6 # 10).
Definition lit_0_4 : float := rnd (4 # 10).
Definition lit_0_05 : float := rnd (5 # 100).

(** [0.05 if (u.personality and v.personality and
    u.personality == v.personality) else 0.0] *)
Definition personality_bonus (u v : User) : float :=
  if str_truthy (personality u) && str_truthy (personality v)
     && opt_str_eqb (personality u) (personality v)
  then lit_0_05 else 0.

Definition match_score (u v : User) : option Z :=
  tag_sim ← jaccard_similarity (tags u) (tags v);
  interest_sim ← jaccard_similarity (interests u) (interests v);
  let score :=
    fmul (fadd (fadd (fmul lit_0_6 tag_sim) (fmul lit_0_4 interest_sim))
               (personality_bonus u v))
         (float_of_int 100) in
  Some (py_round (py_min (PyFloat score) (PyInt 100))).

(** One entry of the response of [/api/match]. *)
Record MatchResult : Type := {
  user : PublicUser;
  score : Z
}.

(** The loop of [match_for_user]: one entry per candidate, in the order
    of the candidates; an exception of [match_score] ends it. *)
Definition score_all (me : User) (others : list User) : option (list MatchResult) :=
  mapM (fun other =>
          s ← match_score me other;
          Some {| user := to_public_dict other; score := s |}) others.

(** [results.sort(key=lambda x: x["score"], reverse=True)].  Python's
    sort is stable, also with [reverse=True]: this is the insertion sort
    with that property. *)
Fixpoint insert_desc (r : MatchResult) (l : list MatchResult) : list MatchResult :=
  match l with
  | [] => [r]
  | x :: l' =>
      if (score x <=? score r)%Z then r :: l else x :: insert_desc r l'
  end.

Definition sort_desc (l : list MatchResult) : list MatchResult :=
  foldr insert_desc [] l.

(** Lines 241 to 249 of [match_for_user]: score, sort, truncate. *)
Definition rank (me : User) (others : list User) (limit : Z)
  : option (list MatchResult) :=
  results ← score_all me others;
  Some (py_slice_to (sort_desc results) limit).

(** The order of the sorted list, and the relation between a candidate
    and its entry. *)
Definition by_score_desc (x y : MatchResult) : Prop := (score y <= score x)%Z.

Definition scored (me : User) (other : User) (r : MatchResult) : Prop :=
  user r = to_public_dict other /\ match_score me other = Some (score r).

Inductive response : Type :=
| Ok200 (results : list MatchResult)
| Error400
| Error404
| Error500.

(** [match_for_user] over the rows [db] of the users table; [user_id]
    and [limit] are the query parameters after [type=int]. *)
Definition match_for_user (db : list User) (user_id_arg limit_arg : option Z)
  : response :=
  let limit := default 20%Z limit_arg in
  match user_id_arg with
  | None | Some 0%Z => Error400
  | Some uid =>
      match List.find (fun u => (user_id u =? uid)%Z) db with
      | None => Error404
      | Some me =>
          let others := List.filter (fun u => negb (user_id u =? user_id me)%Z) db in
          match rank me others limit with
          | Some results => Ok200 results
          | None => Error500
          end
      end
  end.

End Matching.

(** ** The design document's definitions *)

Module Spec.

Import Binary64.
Local Open Scope Q_scope.

(** A list of labels as a set with case-insensitive identity. *)
Definition label_set `{StrOps} (a : list string) : gset string :=
  list_to_set (str_lower <$> a).

(** The Jaccard coefficient [|A ∩ B| / |A ∪ B|], and [0] for two empty
    sets. *)
Definition jaccard (A B : gset string) : Q :=
  if bool_decide (A = ∅) && bool_decide (B = ∅) then 0
  else inject_Z (Z.of_nat (size (A ∩ B))) / inject_Z (Z.of_nat (size (A ∪ B))).

(** A personality is present when it is neither null nor empty. *)
Definition present (p : option string) : Prop :=
  exists s, p = Some s /\ s <> ""%string.

#[global] Instance present_dec p : Decision (present p).
Proof.
  destruct p as [s |].
  - destruct (decide (s = ""%string)) as [-> | Hs].
    + right. intros (t & [= <-] & Ht). now apply Ht.
    + left. now exists s.
  - right. intros (t & [=] & _).
Defined.

Definition personalityBonus (pu pv : option string) : float :=
  if bool_decide (present pu /\ present pv /\ pu = pv) then rnd (5 # 100) else 0.

(** [min(raw, 1.0)] *)
Definition clamp (raw : float) : float := if Qle_bool raw 1 then raw else 1.

(** [round(min(raw, 1.0) * 100)] for
    [raw = 0.6 * tagSim + 0.4 * interestSim + personalityBonus]. *)
Definition score (tagSim interestSim bonus : float) : Z :=
  let raw := fadd (fadd (fmul (rnd (6 # 10)) tagSim) (fmul (rnd (4 # 10)) interestSim)) bonus in
  round_half_even (fmul (clamp raw) (rnd 100)).

End Spec.

(** ** Sample profiles *)

Definition sample_user (i : Z) (t it : list string) (p : option string) : User :=
  {| user_id := i; name := "user"; email := "user@thapar.edu";
     password_hash := "hash"; year := None; department := None; bio := None;
     tags_json := JsonText (strs t); interests_json := JsonText (strs it);
     personality := p |}.

Definition alice : User :=
  sample_user 1 ["Study Buddy"; "Sports Partner"] ["AI"; "Football"] None.
Definition bob : User := sample_user 2 ["Study Buddy"] ["Football"] None.
Definition carol : User := sample_user 3 ["Study Buddy"; "Sports Partner"] [] None.
Definition dave : User := sample_user 4 ["Study Buddy"] ["Football"] None.
Definition erin : User := sample_user 5 ["Chess"] ["Poetry"] (Some "").
Definition frank : User := sample_user 6 ["CHESS"] ["poetry"] (Some "").

(** ** The score with the standard library's IEEE 754 operations

    The same chain of operations as in [match_score], on [spec_float]
    with 53 bits of precision: the reference the operations of
    [Binary64] are compared with on examples. *)

Module Reference.

Import SpecFloat.

Definition sf_0_6 : spec_float := S754_finite false 5404319552844595 (-53).
Definition sf_0_4 : spec_float := S754_finite false 7205759403792794 (-54).
Definition sf_0_05 : spec_float := S754_finite false 7205759403792794 (-57).
Definition sf_100 : spec_float := S754_finite false 7036874417766400 (-46).

Definition sf_truediv (a b : positive) : spec_float :=
  SFdiv 53 1024 (S754_finite false a 0) (S754_finite false b 0).

Definition sf_score (t i bonus : spec_float) : spec_float :=
  SFmul 53 1024
    (SFadd 53 1024
       (SFadd 53 1024 (SFmul 53 1024 sf_0_6 t) (SFmul 53 1024 sf_0_4 i))
       bonus)
    sf_100.

End Reference.

(** ** What can be scored *)

(** The values [jaccard_similarity] accepts: everything but [True], a
    number that is not zero, and a list with an item that is no string. *)
Definition scorable (v : json) : bool :=
  match v with
  | JBool b => negb b
  | JNum x => Qeq_bool x 0
  | JList l => forallb (fun e => bool_decide (is_Some (as_str e))) l
  | _ => true
  end.

(** ** The user routes *)

(** [db.query(User).get(user_id)] on the rows [db] of the users table,
    of which [id] is the primary key. *)
Definition lookup_user (db : list User) (uid : Z) : option User :=
  List.find (fun u => (user_id u =? uid)%Z) db.

Inductive user_response : Type :=
| UserOk (u : PublicUser)   (* 200, with the public dict *)
| UserNotFound              (* 404 *)
| UserError.                (* 500: the commit raised *)

(** [get_user] *)
Definition get_user (db : list User) (uid : Z) : user_response :=
  match lookup_user db uid with
  | Some user => UserOk (to_public_dict user)
  | None => UserNotFound
  end.

(** The body of [PUT /api/users/<id>]: a JSON object of which
    [update_user] reads seven keys.  [None] is an absent key.  The five
    text fields are strings or null, as their columns are; tags and
    interests are any value. *)
Record Patch : Type := {
  patch_name : option (option string);
  patch_year : option (option string);
  patch_department : option (option string);
  patch_bio : option (option string);
  patch_personality : option (option string);
  patch_tags : option json;
  patch_interests : option json
}.

(** [if field in data: setattr(user, field, data[field])] *)
Definition patched {A} (old : A) (entry : option A) : A :=
  match entry with
  | Some new => new
  | None => old
  end.

(** The object after the loop over the fields and the two setters. *)
Definition apply_patch (user : User) (new_name : string) (data : Patch) : User :=
  let user1 :=
    {| user_id := user_id user; name := new_name; email := email user;
       password_hash := password_hash user;
       year := patched (year user) (patch_year data);
       department := patched (department user) (patch_department data);
       bio := patched (bio user) (patch_bio data);
       tags_json := tags_json user; interests_json := interests_json user;
       personality := patched (personality user) (patch_personality data) |} in
  let user2 :=
    match patch_tags data with
    | Some v => set_tags user1 v
    | None => user1
    end in
  match patch_interests data with
  | Some v => set_interests user2 v
  | None => user2
  end.

(** [db.commit()]: the row of the user is written back. *)
Definition store_user (db : list User) (user : User) : list User :=
  (fun row => if (user_id row =? user_id user)%Z then user else row) <$> db.

(** [update_user], with the table after the request.  The column [name]
    is [nullable=False]: with a null name the commit raises and nothing
    is written. *)
Definition update_user (db : list User) (uid : Z) (data : Patch)
  : user_response * list User :=
  match lookup_user db uid with
  | None => (UserNotFound, db)
  | Some user =>
      match patched (Some (name user)) (patch_name data) with
      | None => (UserError, db)
      | Some new_name =>
          let user' := apply_patch user new_name data in
          (UserOk (to_public_dict user'), store_user db user')
      end
  end.

(** The patch without any key, and patches of one key. *)
Definition empty_patch : Patch :=
  {| patch_name := None; patch_year := None; patch_department := None;
     patch_bio := None; patch_personality := None; patch_tags := None;
     patch_interests := None |}.

Definition tags_patch (v : json) : Patch :=
  {| patch_name := None; patch_year := None; patch_department := None;
     patch_bio := None; patch_personality := None; patch_tags := Some v;
     patch_interests := None |}.

Definition bio_patch (b : option string) : Patch :=
  {| patch_name := None; patch_year := None; patch_department := None;
     patch_bio := Some b; patch_personality := None; patch_tags := None;
     patch_interests := None |}.

(** More sample profiles. *)
Definition grace : User := sample_user 7 ["Gym"; "Chess"] ["AI"] (Some "INTJ").
Definition heidi : User := sample_user 8 ["chess"; "GYM"; "gym"] ["ai"] (Some "INTJ").
Definition ivan : User := sample_user 9 ["Music"] ["Art"] (Some "INTJ").
Definition broken : User := set_tags (sample_user 10 [] [] None) (JNum 5).
Definition judy : User :=
  sample_user 11 ["Study Buddy"; "Sports Partner"] ["Football"] None.
Definition karl : User := sample_user 12 ["gym"; "CHESS"] ["Art"] None.
Definition campus : list User := [alice; bob; carol; dave].

(** The label sets of some of them. *)
Definition gym_chess : gset string := Spec.label_set ["Gym"; "Chess"].
Definition only_ai : gset string := Spec.label_set ["AI"].
Definition only_art : gset string := Spec.label_set ["Art"].
Definition only_music : gset string := Spec.label_set ["Music"].
Definition study_sports : gset string :=
  Spec.label_set ["Study Buddy"; "Sports Partner"].

Definition ranked_samples : list MatchResult :=
  [ {| user := to_public_dict carol; score := 60 |};
    {| user := to_public_dict bob; score := 50 |};
    {| user := to_public_dict dave; score := 50 |} ].

Definition scored_samples : list MatchResult :=
  [ {| user := to_public_dict bob; score := 50 |};
    {| user := to_public_dict carol; score := 60 |};
    {| user := to_public_dict dave; score := 50 |} ].

(** ** Facts about binary64 rounding *)

Module Binary64Facts.

Import Binary64.
Local Open Scope Q_scope.

Lemma pow2_pos e : 0 < pow2 e.
Proof. apply Qpower_0_lt. reflexivity. Qed.

Lemma pow2_add a b : pow2 (a + b) == pow2 a * pow2 b.
Proof. apply Qpower_plus. discriminate. Qed.

Lemma pow2_sub a b : pow2 (a - b) == pow2 a / pow2 b.
Proof. apply Qpower_minus. discriminate. Qed.

Lemma pow2_Z a : (0 <= a)%Z -> pow2 a == inject_Z (2 ^ a).
Proof. intros Ha. unfold pow2. now rewrite Zpower_Qpower. Qed.

Lemma pow2_le a b : (a <= b)%Z -> pow2 a <= pow2 b.
Proof. intros H. apply Qpower_le_compat_l; [exact H | discriminate]. Qed.

Lemma pow2_lt_inv a b : pow2 a < pow2 b -> (a < b)%Z.
Proof.
  intros H. destruct (Z_lt_le_dec a b) as [Hlt | Hle]; [exact Hlt |].
  apply pow2_le in Hle. lra.
Qed.

Lemma Zfrac_le (x y n d : Z) :
  (0 < y)%Z -> (0 < d)%Z -> (x * d <= n * y)%Z ->
  inject_Z x / inject_Z y <= inject_Z n / inject_Z d.
Proof.
  intros Hy Hd H.
  assert (Hy' : 0 < inject_Z y) by (rewrite <- (Zlt_Qlt 0); exact Hy).
  assert (Hd' : 0 < inject_Z d) by (rewrite <- (Zlt_Qlt 0); exact Hd).
  apply Qle_shift_div_l; [exact Hd' |].
  unfold Qdiv. rewrite <- Qmult_assoc, (Qmult_comm (/ _)), Qmult_assoc.
  apply Qle_shift_div_r; [exact Hy' |].
  rewrite <- !inject_Z_mult, <- Zle_Qle. exact H.
Qed.

Lemma Zfrac_lt (x y n d : Z) :
  (0 < y)%Z -> (0 < d)%Z -> (n * y < x * d)%Z ->
  inject_Z n / inject_Z d < inject_Z x / inject_Z y.
Proof.
  intros Hy Hd H.
  assert (Hy' : 0 < inject_Z y) by (rewrite <- (Zlt_Qlt 0); exact Hy).
  assert (Hd' : 0 < inject_Z d) by (rewrite <- (Zlt_Qlt 0); exact Hd).
  apply Qlt_shift_div_l; [exact Hy' |].
  unfold Qdiv. rewrite <- Qmult_assoc, (Qmult_comm (/ _)), Qmult_assoc.
  apply Qlt_shift_div_r; [exact Hd' |].
  rewrite <- !inject_Z_mult, <- Zlt_Qlt. exact H.
Qed.

Lemma ilog2_spec q : 0 < q -> pow2 (ilog2 q) <= q < pow2 (ilog2 q + 1).
Proof.
  intros Hq. destruct q as [n d]. unfold ilog2. cbn [Qnum Qden].
  assert (Hn : (0 < n)%Z) by (unfold Qlt in Hq; simpl in Hq; lia).
  pose proof (Z.log2_spec n Hn) as [Hn1 Hn2].
  pose proof (Z.log2_spec (Zpos d) (Pos2Z.is_pos d)) as [Hd1 Hd2].
  pose proof (Z.log2_nonneg n) as Ha. pose proof (Z.log2_nonneg (Zpos d)) as Hb.
  set (a := Z.log2 n) in *. set (b := Z.log2 (Zpos d)) in *.
  assert (Hpa : (0 < 2 ^ a)%Z) by (apply Z.pow_pos_nonneg; lia).
  assert (Hpb : (0 < 2 ^ b)%Z) by (apply Z.pow_pos_nonneg; lia).
  assert (Hpa' : (0 < 2 ^ Z.succ a)%Z) by (apply Z.pow_pos_nonneg; lia).
  assert (Hpb' : (0 < 2 ^ Z.succ b)%Z) by (apply Z.pow_pos_nonneg; lia).
  destruct (Qle_bool (pow2 (a - b)) (n # d)) eqn:Ht.
  - split; [now apply Qle_bool_iff |].
    replace (a - b + 1)%Z with (Z.succ a - b)%Z by lia.
    rewrite pow2_sub, !pow2_Z, (Qmake_Qdiv n d) by lia.
    apply Zfrac_lt; nia.
  - split.
    + replace (a - b - 1)%Z with (a - Z.succ b)%Z by lia.
      rewrite pow2_sub, !pow2_Z, (Qmake_Qdiv n d) by lia.
      apply Zfrac_le; nia.
    + replace (a - b - 1 + 1)%Z with (a - b)%Z by lia.
      apply Qnot_le_lt. intros H. apply Qle_bool_iff in H. congruence.
Qed.

Lemma ilog2_unique q k : pow2 k <= q < pow2 (k + 1) -> ilog2 q = k.
Proof.
  intros [H1 H2].
  assert (Hq : 0 < q) by (pose proof (pow2_pos k); lra).
  destruct (ilog2_spec q Hq) as [H3 H4].
  assert (k < ilog2 q + 1)%Z by (apply pow2_lt_inv; lra).
  assert (ilog2 q < k + 1)%Z by (apply pow2_lt_inv; lra).
  lia.
Qed.

Lemma ilog2_comp q q' : 0 < q -> q == q' -> ilog2 q = ilog2 q'.
Proof.
  intros Hq He. apply ilog2_unique. rewrite He.
  apply ilog2_spec. now rewrite <- He.
Qed.

Lemma round_half_even_cases q :
  round_half_even q = Qfloor q \/
  (round_half_even q = (Qfloor q + 1)%Z /\ 1 # 2 <= q - inject_Z (Qfloor q)).
Proof.
  unfold round_half_even.
  destruct (Qcompare_spec (q - inject_Z (Qfloor q)) (1 # 2)) as [H | H | H].
  - destruct (Z.even (Qfloor q)); [now left | right; split; [reflexivity | lra]].
  - now left.
  - right. split; [reflexivity | lra].
Qed.

Lemma round_half_even_ge q k : inject_Z k <= q -> (k <= round_half_even q)%Z.
Proof.
  intros H. apply Qfloor_resp_le in H. rewrite Qfloor_Z in H.
  destruct (round_half_even_cases q) as [-> | [-> _]]; lia.
Qed.

Lemma round_half_even_le q k : q <= inject_Z k -> (round_half_even q <= k)%Z.
Proof.
  intros H. pose proof (Qfloor_le q) as Hf.
  destruct (round_half_even_cases q) as [-> | [-> Hh]].
  - rewrite Zle_Qle. lra.
  - assert (Hlt : inject_Z (Qfloor q) < inject_Z k) by lra.
    rewrite <- Zlt_Qlt in Hlt. lia.
Qed.

Lemma round_half_even_Z k : round_half_even (inject_Z k) = k.
Proof.
  apply Z.le_antisymm.
  - apply round_half_even_le, Qle_refl.
  - apply round_half_even_ge, Qle_refl.
Qed.

Lemma round_half_even_comp q q' : q == q' -> round_half_even q = round_half_even q'.
Proof.
  intros H. unfold round_half_even.
  rewrite (Qfloor_comp _ _ H).
  assert (Hc : q - inject_Z (Qfloor q') == q' - inject_Z (Qfloor q')) by (rewrite H; reflexivity).
  now rewrite (Qcompare_comp _ _ Hc _ _ (Qeq_refl (1 # 2))).
Qed.

Lemma round_half_even_err q : Qabs (inject_Z (round_half_even q) - q) <= 1 # 2.
Proof.
  pose proof (Qfloor_le q) as Hf. pose proof (Qlt_floor q) as Hc.
  rewrite inject_Z_plus in Hc. change (inject_Z 1) with 1 in Hc.
  apply Qabs_Qle_condition. unfold round_half_even.
  destruct (Qcompare_spec (q - inject_Z (Qfloor q)) (1 # 2)) as [H | H | H].
  - destruct (Z.even (Qfloor q)); [| rewrite inject_Z_plus; change (inject_Z 1) with 1];
      split; lra.
  - split; lra.
  - rewrite inject_Z_plus. change (inject_Z 1) with 1. split; lra.
Qed.

(** A tie goes to the even neighbour, whatever its sign. *)
Lemma round_half_even_tie k :
  round_half_even (inject_Z k + (1 # 2)) = if Z.even k then k else (k + 1)%Z.
Proof.
  assert (Hfl : Qfloor (inject_Z k + (1 # 2)) = k).
  { apply Z.le_antisymm.
    - assert (H : inject_Z (Qfloor (inject_Z k + (1 # 2))) < inject_Z (k + 1)).
      { pose proof (Qfloor_le (inject_Z k + (1 # 2))).
        rewrite inject_Z_plus. change (inject_Z 1) with 1. lra. }
      rewrite <- Zlt_Qlt in H. lia.
    - rewrite <- (Qfloor_Z k) at 1. apply Qfloor_resp_le. lra. }
  unfold round_half_even. rewrite Hfl.
  destruct (Qcompare_spec (inject_Z k + (1 # 2) - inject_Z k) (1 # 2)) as [H | H | H];
    [reflexivity | lra | lra].
Qed.

Lemma Qabs_zero_inv q : ~ q == 0 -> 0 < Qabs q.
Proof.
  intros Hq. pose proof (Qabs_nonneg q).
  destruct (Qlt_le_dec 0 (Qabs q)) as [Hl | Hl]; [exact Hl |].
  exfalso. apply Hq. apply Qabs_Qle_condition in Hl. lra.
Qed.

Lemma exponent_min q : (-1074 <= exponent q)%Z.
Proof. unfold exponent. lia. Qed.

Lemma exponent_le q E :
  (-1074 <= E)%Z -> ~ q == 0 -> Qabs q < pow2 (E + 53) -> (exponent q <= E)%Z.
Proof.
  intros HE Hq Hb. unfold exponent.
  pose proof (Qabs_zero_inv q Hq) as H0.
  destruct (ilog2_spec _ H0) as [H1 _].
  assert (ilog2 (Qabs q) < E + 53)%Z by (apply pow2_lt_inv; lra).
  lia.
Qed.

Lemma exponent_comp q q' : ~ q == 0 -> q == q' -> exponent q = exponent q'.
Proof.
  intros Hq He. unfold exponent. f_equal. f_equal.
  apply ilog2_comp; [now apply Qabs_zero_inv | now rewrite He].
Qed.

Lemma rnd_zero q : q == 0 -> rnd q = 0.
Proof.
  intros H. unfold rnd. generalize (exponent q). intros e.
  transitivity (Qred 0); [| reflexivity]. apply Qred_complete.
  rewrite (round_half_even_comp (q / pow2 e) (inject_Z 0)).
  - rewrite round_half_even_Z. apply Qmult_0_l.
  - rewrite H. unfold Qdiv. apply Qmult_0_l.
Qed.

(** [rnd] is a function of the rational, not of its representation. *)
Lemma rnd_comp q q' : q == q' -> rnd q = rnd q'.
Proof.
  intros He. destruct (Qeq_dec q 0) as [H0 | H0].
  - rewrite (rnd_zero q H0). symmetry. apply rnd_zero. now rewrite <- He.
  - unfold rnd. apply Qred_complete.
    rewrite (exponent_comp q q' H0 He).
    rewrite (round_half_even_comp (q / pow2 (exponent q')) (q' / pow2 (exponent q'))).
    + reflexivity.
    + now rewrite He.
Qed.

(** Rounding never crosses a number [M * 2^E] that lies on the grid of
    the rounded value. *)
Lemma rnd_le_grid q M E :
  (exponent q <= E)%Z -> q <= inject_Z M * pow2 E -> rnd q <= inject_Z M * pow2 E.
Proof.
  intros HE Hq. unfold rnd. rewrite Qred_correct.
  set (e := exponent q) in *.
  pose proof (pow2_pos e) as He.
  assert (Hg : inject_Z M * pow2 E == inject_Z (M * 2 ^ (E - e)) * pow2 e).
  { rewrite inject_Z_mult, <- pow2_Z by lia. rewrite <- Qmult_assoc, <- pow2_add.
    now replace (E - e + e)%Z with E by lia. }
  rewrite Hg in *.
  apply Qmult_le_compat_r; [| lra].
  rewrite <- Zle_Qle. apply round_half_even_le.
  apply Qle_shift_div_r; assumption.
Qed.

Lemma rnd_ge_grid q M E :
  (exponent q <= E)%Z -> inject_Z M * pow2 E <= q -> inject_Z M * pow2 E <= rnd q.
Proof.
  intros HE Hq. unfold rnd. rewrite Qred_correct.
  set (e := exponent q) in *.
  pose proof (pow2_pos e) as He.
  assert (Hg : inject_Z M * pow2 E == inject_Z (M * 2 ^ (E - e)) * pow2 e).
  { rewrite inject_Z_mult, <- pow2_Z by lia. rewrite <- Qmult_assoc, <- pow2_add.
    now replace (E - e + e)%Z with E by lia. }
  rewrite Hg in *.
  apply Qmult_le_compat_r; [| lra].
  rewrite <- Zle_Qle. apply round_half_even_ge.
  apply Qle_shift_div_l; assumption.
Qed.

(** The rounding error is at most half a unit in the last place. *)
Lemma rnd_err q : Qabs (rnd q - q) <= pow2 (exponent q - 1).
Proof.
  unfold rnd. rewrite Qred_correct.
  set (e := exponent q). pose proof (pow2_pos e) as He.
  pose proof (round_half_even_err (q / pow2 e)) as Hr.
  set (m := inject_Z (round_half_even (q / pow2 e))) in *.
  assert (Hq : m * pow2 e - q == (m - q / pow2 e) * pow2 e) by (field; lra).
  rewrite Hq, Qabs_Qmult, (Qabs_pos (pow2 e)) by lra.
  assert (Hh : pow2 (e - 1) == (1 # 2) * pow2 e).
  { rewrite pow2_sub. unfold Qdiv. rewrite Qmult_comm. reflexivity. }
  rewrite Hh. apply Qmult_le_compat_r; [exact Hr | lra].
Qed.

Lemma pow2_0 : pow2 0 == 1.
Proof. reflexivity. Qed.

(** Between two integers of at most 53 bits, rounding stays between
    them. *)
Lemma rnd_range q a b :
  (0 <= a)%Z -> (b < 2 ^ 53)%Z -> inject_Z a <= q <= inject_Z b ->
  inject_Z a <= rnd q <= inject_Z b.
Proof.
  intros Ha Hb [Hl Hu].
  assert (Ha' : 0 <= inject_Z a) by (rewrite (Zle_Qle 0) in Ha; exact Ha).
  destruct (Qeq_dec q 0) as [H0 | H0].
  - rewrite (rnd_zero q H0). lra.
  - assert (He : (exponent q <= 0)%Z).
    { apply exponent_le; [lia | exact H0 |].
      rewrite Qabs_pos by lra. change (0 + 53)%Z with 53%Z.
      rewrite pow2_Z by lia. rewrite Zlt_Qlt in Hb. lra. }
    split.
    + rewrite <- (Qmult_1_r (inject_Z a)), <- pow2_0.
      apply rnd_ge_grid; [exact He |]. rewrite pow2_0. lra.
    + rewrite <- (Qmult_1_r (inject_Z b)), <- pow2_0.
      apply rnd_le_grid; [exact He |]. rewrite pow2_0. lra.
Qed.

Lemma rnd_Z n : (0 <= n < 2 ^ 53)%Z -> rnd (inject_Z n) == inject_Z n.
Proof.
  intros Hn. apply Qle_antisym; apply (rnd_range (inject_Z n) n n); try lia; lra.
Qed.

(** Below one, the error of rounding is at most [2^-54]. *)
Lemma rnd_err_unit q : 0 <= q <= 1 -> Qabs (rnd q - q) <= pow2 (-54).
Proof.
  intros [Hl Hu]. destruct (Qeq_dec q 0) as [H0 | H0].
  { rewrite (rnd_zero q H0), H0. apply Qle_bool_imp_le. vm_compute. reflexivity. }
  destruct (Qeq_dec q 1) as [H1 | H1].
  { rewrite (rnd_comp q 1 H1), H1. apply Qle_bool_imp_le. vm_compute. reflexivity. }
  eapply Qle_trans; [apply rnd_err |]. apply pow2_le.
  assert (Hq : 0 < Qabs q) by now apply Qabs_zero_inv.
  destruct (ilog2_spec _ Hq) as [Hs _]. rewrite Qabs_pos in Hs at 2 by lra.
  assert (ilog2 (Qabs q) < 0)%Z.
  { apply pow2_lt_inv. rewrite pow2_0. lra. }
  unfold exponent. lia.
Qed.

End Binary64Facts.

(** ** Rounding keeps the order *)

Module Binary64Order.

Import Binary64 Binary64Facts.
Local Open Scope Q_scope.

Lemma round_half_even_mono p q : p <= q -> (round_half_even p <= round_half_even q)%Z.
Proof.
  intros Hpq. pose proof (Qfloor_resp_le _ _ Hpq) as Hf.
  destruct (Z.eq_dec (Qfloor p) (Qfloor q)) as [He | Hne].
  - unfold round_half_even. rewrite He.
    destruct (Qcompare_spec (p - inject_Z (Qfloor q)) (1 # 2)) as [H1 | H1 | H1];
      destruct (Qcompare_spec (q - inject_Z (Qfloor q)) (1 # 2)) as [H2 | H2 | H2];
      try lia; try lra; destruct (Z.even (Qfloor q)); lia.
  - destruct (round_half_even_cases p) as [-> | [-> _]];
      destruct (round_half_even_cases q) as [-> | [-> _]]; lia.
Qed.

Lemma ilog2_mono x y : 0 < x -> x <= y -> (ilog2 x <= ilog2 y)%Z.
Proof.
  intros Hx Hxy. destruct (ilog2_spec x Hx) as [H1 _].
  destruct (ilog2_spec y) as [_ H2]; [lra |].
  assert (ilog2 x < ilog2 y + 1)%Z by (apply pow2_lt_inv; lra). lia.
Qed.

(** On non-negative numbers [rnd] is monotone. *)
Lemma rnd_mono x y : 0 <= x -> x <= y -> rnd x <= rnd y.
Proof.
  intros Hx Hxy. destruct (Qeq_dec x 0) as [H0 | H0].
  { rewrite (rnd_zero x H0).
    rewrite <- (Qmult_0_l (pow2 (exponent y))). change 0 with (inject_Z 0).
    apply rnd_ge_grid; [lia |]. rewrite Qmult_0_l. lra. }
  assert (Hx' : 0 < x) by (destruct (Qlt_le_dec 0 x) as [Hl | Hl]; [exact Hl |];
                           exfalso; apply H0; lra).
  assert (Hax : Qabs x == x) by (apply Qabs_pos; lra).
  assert (Hay : Qabs y == y) by (apply Qabs_pos; lra).
  assert (Hix : ilog2 (Qabs x) = ilog2 x) by (apply ilog2_comp; [lra | exact Hax]).
  assert (Hiy : ilog2 (Qabs y) = ilog2 y) by (apply ilog2_comp; [lra | exact Hay]).
  pose proof (ilog2_mono x y Hx' Hxy) as Hm.
  destruct (Z.eq_dec (exponent x) (exponent y)) as [He | Hne].
  - unfold rnd. rewrite !Qred_correct, He.
    pose proof (pow2_pos (exponent y)) as Hp.
    apply Qmult_le_compat_r; [| lra].
    rewrite <- Zle_Qle. apply round_half_even_mono.
    apply Qmult_le_compat_r; [exact Hxy |]. apply Qlt_le_weak, Qinv_lt_0_compat, Hp.
  - assert (Hlt : (exponent x < exponent y)%Z)
      by (unfold exponent in *; rewrite Hix, Hiy in *; lia).
    assert (Hey : exponent y = (ilog2 y - 52)%Z)
      by (unfold exponent in *; rewrite Hix, Hiy in *; lia).
    assert (Hk : (ilog2 x + 1 <= ilog2 y)%Z)
      by (unfold exponent in *; rewrite Hix, Hiy in *; lia).
    destruct (ilog2_spec x Hx') as [_ Hux].
    destruct (ilog2_spec y) as [Hly _]; [lra |].
    assert (Hg : inject_Z (2 ^ 52) * pow2 (exponent y) == pow2 (ilog2 y)).
    { rewrite <- pow2_Z by lia. rewrite <- pow2_add, Hey. f_equiv. lia. }
    apply Qle_trans with (inject_Z (2 ^ 52) * pow2 (exponent y)).
    + apply rnd_le_grid; [lia |]. rewrite Hg.
      apply Qle_trans with (pow2 (ilog2 x + 1)); [lra | now apply pow2_le].
    + apply rnd_ge_grid; [lia |]. rewrite Hg. exact Hly.
Qed.

Lemma rnd_nonneg x : 0 <= x -> 0 <= rnd x.
Proof.
  intros Hx. rewrite <- (rnd_zero 0) at 1 by reflexivity. apply rnd_mono; [lra | exact Hx].
Qed.

End Binary64Order.

(** ** Properties of the matching engine *)

Section MatchingFacts.

Context `{StrOps}.

Import Binary64 Binary64Facts.

Lemma lowered_strs (a : list string) : lowered (strs a) = Some (str_lower <$> a).
Proof.
  unfold strs. cbn [lowered]. induction a as [| s a IH]; [reflexivity |].
  cbn. cbn in IH. rewrite IH. reflexivity.
Qed.

Lemma py_or_strs (a : list string) : lowered (py_or (strs a) (JList [])) = Some (str_lower <$> a).
Proof.
  destruct a as [| s a]; [reflexivity |]. apply lowered_strs.
Qed.

Lemma lowered_set_strs (a : list string) :
  lowered_set (strs a) = Some (Spec.label_set a).
Proof. unfold lowered_set. now rewrite py_or_strs. Qed.

Lemma elem_of_label_set (s : string) (a : list string) :
  s ∈ Spec.label_set a <-> exists t, t ∈ a /\ s = str_lower t.
Proof.
  unfold Spec.label_set. rewrite elem_of_list_to_set, list_elem_of_fmap.
  split; intros (t & H1 & H2); exists t; auto.
Qed.

Lemma jaccard_sets (a b : json) (A B : gset string) :
  lowered_set a = Some A -> lowered_set b = Some B ->
  jaccard_similarity a b = Some (rnd (Spec.jaccard A B)).
Proof.
  intros Ha Hb. unfold jaccard_similarity, Spec.jaccard. rewrite Ha, Hb. cbn.
  destruct (bool_decide (A = ∅) && bool_decide (B = ∅)) eqn:He.
  - now rewrite rnd_zero.
  - destruct (Z.eqb_spec (Z.of_nat (size (A ∪ B))) 0) as [H0 | H0]; [| reflexivity].
    exfalso. assert (Hu : A ∪ B = ∅) by (apply leibniz_equiv, size_empty_iff; lia).
    apply empty_union_L in Hu. destruct Hu as [HA HB]. subst A B.
    rewrite !bool_decide_eq_true_2 in He by reflexivity. discriminate.
Qed.

Local Open Scope Q_scope.

Lemma spec_jaccard_range (A B : gset string) : 0 <= Spec.jaccard A B <= 1.
Proof.
  unfold Spec.jaccard.
  destruct (bool_decide (A = ∅) && bool_decide (B = ∅)) eqn:He; [lra |].
  assert (Hu : (0 < size (A ∪ B))%nat).
  { destruct (decide (size (A ∪ B) = 0%nat)) as [H0 | H0]; [| lia].
    exfalso. apply size_empty_iff, leibniz_equiv, empty_union_L in H0.
    destruct H0 as [HA HB]. subst A B.
    rewrite !bool_decide_eq_true_2 in He by reflexivity. discriminate. }
  assert (Hi : (size (A ∩ B) <= size (A ∪ B))%nat).
  { apply subseteq_size. set_solver. }
  assert (Hu' : 0 < inject_Z (Z.of_nat (size (A ∪ B)))).
  { rewrite <- (Zlt_Qlt 0). lia. }
  split.
  - apply Qle_shift_div_l; [exact Hu' |]. rewrite Qmult_0_l, <- (Zle_Qle 0). lia.
  - apply Qle_shift_div_r; [exact Hu' |]. rewrite Qmult_1_l, <- Zle_Qle. lia.
Qed.

Lemma jaccard_similarity_range (a b : json) (x : float) :
  jaccard_similarity a b = Some x -> 0 <= x <= 1.
Proof.
  unfold jaccard_similarity. intros Hx.
  destruct (lowered_set a) as [A |] eqn:Ha; [| discriminate].
  destruct (lowered_set b) as [B |] eqn:Hb; [| discriminate].
  rewrite <- Ha, <- Hb in Hx. fold (jaccard_similarity a b) in Hx.
  rewrite (jaccard_sets a b A B Ha Hb) in Hx. injection Hx as <-.
  apply (rnd_range _ 0 1); [lia | lia |]. apply spec_jaccard_range.
Qed.

(** C3. On two lists of strings [jaccard_similarity] lower-cases every
    element, builds the two sets and returns the Jaccard coefficient
    [|A ∩ B| / |A ∪ B|] of these sets as a float: the double nearest to
    the exact quotient, at most [2^-54] away from it and within
    [[0.0, 1.0]]; for two empty sets it returns exactly [0.0]. *)
Theorem jaccard_similarity_spec (a b : list string) :
  let A := Spec.label_set a in
  let B := Spec.label_set b in
  exists x : float,
    jaccard_similarity (strs a) (strs b) = Some x /\
    x = rnd (Spec.jaccard A B) /\
    Qabs (x - Spec.jaccard A B) <= pow2 (-54) /\
    0 <= x <= 1 /\
    (A = ∅ /\ B = ∅ -> x = 0).
Proof.
  intros A B. exists (rnd (Spec.jaccard A B)).
  pose proof (spec_jaccard_range A B) as Hr.
  split; [| split; [| split; [| split]]].
  - apply jaccard_sets; apply lowered_set_strs.
  - reflexivity.
  - now apply rnd_err_unit.
  - now apply (rnd_range _ 0 1).
  - intros [-> ->]. reflexivity.
Qed.

(** A non-empty list is at distance 1.0 from itself. *)
Lemma jaccard_similarity_refl (a : list string) :
  a <> [] -> jaccard_similarity (strs a) (strs a) = Some 1.
Proof.
  intros Ha.
  rewrite (jaccard_sets _ _ _ _ (lowered_set_strs a) (lowered_set_strs a)).
  f_equal. transitivity (rnd 1); [| vm_compute; reflexivity].
  apply rnd_comp. unfold Spec.jaccard.
  assert (Hne : Spec.label_set a <> ∅).
  { destruct a as [| s a]; [congruence |].
    intros He. assert (Hin : str_lower s ∈ Spec.label_set (s :: a)).
    { apply elem_of_label_set. exists s. split; [left | reflexivity]. }
    rewrite He in Hin. set_solver. }
  rewrite (bool_decide_eq_false_2 _ Hne). cbn [andb].
  assert (Hi : Spec.label_set a ∩ Spec.label_set a = Spec.label_set a) by set_solver.
  assert (Hu : Spec.label_set a ∪ Spec.label_set a = Spec.label_set a) by set_solver.
  rewrite Hi, Hu. apply Qmult_inv_r.
  intros Hz. apply Hne, leibniz_equiv, size_empty_iff.
  unfold Qeq in Hz. cbn in Hz. lia.
Qed.

(** C8. [jaccard_similarity] is symmetric in its two arguments, on every
    pair of values, an exception included. *)
Theorem jaccard_similarity_sym (a b : json) :
  jaccard_similarity a b = jaccard_similarity b a.
Proof.
  unfold jaccard_similarity.
  destruct (lowered_set a) as [A |], (lowered_set b) as [B |]; cbn; try reflexivity.
  rewrite (andb_comm (bool_decide (A = ∅))).
  assert (Hi : A ∩ B = B ∩ A) by set_solver.
  assert (Hu : A ∪ B = B ∪ A) by set_solver.
  now rewrite Hi, Hu.
Qed.

(** *** The score *)

Lemma lit_range : 0 <= lit_0_6 <= 1 /\ 0 <= lit_0_4 <= 1 /\ 0 <= lit_0_05 <= 1.
Proof. repeat split; apply Qle_bool_imp_le; vm_compute; reflexivity. Qed.

Lemma float_of_int_100 : float_of_int 100 = 100.
Proof. vm_compute. reflexivity. Qed.

Lemma fmul_unit (x y : float) : 0 <= x <= 1 -> 0 <= y <= 1 -> 0 <= fmul x y <= 1.
Proof.
  intros Hx Hy. apply (rnd_range _ 0 1); [lia | lia |]. split.
  - apply Qmult_le_0_compat; lra.
  - change (inject_Z 1) with (1 * 1). apply Qmult_le_compat_nonneg; lra.
Qed.

Lemma personality_bonus_range (u v : User) : 0 <= personality_bonus u v <= 1.
Proof.
  unfold personality_bonus.
  destruct (_ && _); [apply lit_range | lra].
Qed.

(** The weighted sum before the factor 100 lies in [[0, 3]]. *)
Lemma raw_range (t i bonus : float) :
  0 <= t <= 1 -> 0 <= i <= 1 -> 0 <= bonus <= 1 ->
  0 <= fadd (fadd (fmul lit_0_6 t) (fmul lit_0_4 i)) bonus <= 3.
Proof.
  intros Ht Hi Hb. destruct lit_range as (H6 & H4 & _).
  pose proof (fmul_unit _ _ H6 Ht) as H1. pose proof (fmul_unit _ _ H4 Hi) as H2.
  assert (H3 : 0 <= fadd (fmul lit_0_6 t) (fmul lit_0_4 i) <= 2).
  { apply (rnd_range _ 0 2); [lia | lia |]. change (inject_Z 0) with 0.
    change (inject_Z 2) with 2. lra. }
  apply (rnd_range _ 0 3); [lia | lia |]. change (inject_Z 0) with 0.
  change (inject_Z 3) with 3. lra.
Qed.

(** Every float [match_score] computes is far below [2^1024], the range
    in which [rnd] is the rounding of the hardware. *)
Lemma finite64_le_300 (x : float) : 0 <= x <= 300 -> finite64 x.
Proof.
  intros Hx. unfold finite64. rewrite Qabs_pos by lra.
  assert (H300 : 300 < pow2 1024).
  { rewrite pow2_Z by lia. rewrite <- (Zlt_Qlt 300). reflexivity. }
  lra.
Qed.

Lemma match_score_floats_finite (t i bonus : float) :
  0 <= t <= 1 -> 0 <= i <= 1 -> 0 <= bonus <= 1 ->
  let a := fmul lit_0_6 t in
  let b := fmul lit_0_4 i in
  let raw := fadd (fadd a b) bonus in
  finite64 a /\ finite64 b /\ finite64 (fadd a b) /\ finite64 raw /\
  finite64 (fmul raw (float_of_int 100)).
Proof.
  intros Ht Hi Hb a b raw. destruct lit_range as (H6 & H4 & _).
  pose proof (fmul_unit _ _ H6 Ht) as Ha. pose proof (fmul_unit _ _ H4 Hi) as Hb'.
  pose proof (raw_range t i bonus Ht Hi Hb) as Hraw. fold a b raw in Hraw.
  assert (Hab : 0 <= fadd a b <= 2).
  { apply (rnd_range _ 0 2); [lia | lia |]. change (inject_Z 0) with 0.
    change (inject_Z 2) with 2. fold a b in Ha, Hb'. lra. }
  assert (Hs : 0 <= fmul raw (float_of_int 100) <= 300).
  { rewrite float_of_int_100. apply (rnd_range _ 0 300); [lia | lia |].
    change (inject_Z 0) with 0. change (inject_Z 300) with 300. lra. }
  fold a b in Ha, Hb'.
  repeat split; apply finite64_le_300; lra.
Qed.

(** Clamping the product at 100 and clamping the factor at 1.0 give the
    same integer. *)
Lemma clamp_before_round (raw : float) :
  0 <= raw <= 3 ->
  py_round (py_min (PyFloat (fmul raw (float_of_int 100))) (PyInt 100)) =
  round_half_even (fmul (Spec.clamp raw) (rnd 100)).
Proof.
  intros [Hl Hu]. rewrite float_of_int_100. unfold Spec.clamp, py_min, fmul.
  cbn [num_value].
  destruct (Qle_bool raw 1) eqn:Hc.
  - apply Qle_bool_iff in Hc.
    assert (Hs : inject_Z 0 <= rnd (raw * 100) <= inject_Z 100).
    { apply rnd_range; [lia | lia |]. change (inject_Z 0) with 0.
      change (inject_Z 100) with 100. lra. }
    destruct Hs as [_ Hs]. apply Qle_bool_iff in Hs. rewrite Hs.
    cbn [py_round]. apply round_half_even_comp, Qeq_refl.
  - assert (Hr : 1 < raw).
    { apply Qnot_le_lt. intros Hle. apply Qle_bool_iff in Hle. congruence. }
    assert (Hs : inject_Z 100 <= rnd (raw * 100) <= inject_Z 300).
    { apply rnd_range; [lia | lia |]. change (inject_Z 300) with 300.
      change (inject_Z 100) with 100. lra. }
    transitivity 100%Z; [| vm_compute; reflexivity].
    destruct (Qle_bool (rnd (raw * 100)) (inject_Z 100)) eqn:Hm; [| reflexivity].
    apply Qle_bool_iff in Hm. cbn [py_round].
    rewrite (round_half_even_comp _ (inject_Z 100)); [apply round_half_even_Z |].
    apply Qle_antisym; tauto.
Qed.

Lemma str_truthy_present (p : option string) :
  str_truthy p = true <-> Spec.present p.
Proof.
  unfold str_truthy, Spec.present. destruct p as [s |].
  - rewrite negb_true_iff. split.
    + intros Hs. exists s. split; [reflexivity |]. intros ->. discriminate.
    + intros (t & [= <-] & Ht). now apply String.eqb_neq.
  - split; [discriminate | intros (t & [=] & _)].
Qed.

Lemma opt_str_eqb_eq (p q : option string) : opt_str_eqb p q = true <-> p = q.
Proof.
  destruct p as [s |], q as [t |]; cbn; try (split; [discriminate | intros [=]]).
  - rewrite String.eqb_eq. split; [now intros -> | now intros [= ->]].
  - tauto.
Qed.

(** The bonus of the code is the bonus of the design document, where
    present means neither null nor empty. *)
Lemma personality_bonus_spec (u v : User) :
  personality_bonus u v = Spec.personalityBonus (personality u) (personality v).
Proof.
  unfold personality_bonus, Spec.personalityBonus.
  destruct (bool_decide_reflect
              (Spec.present (personality u) /\ Spec.present (personality v) /\
               personality u = personality v)) as [(Hu & Hv & He) | Hn].
  - apply str_truthy_present in Hu, Hv. apply opt_str_eqb_eq in He.
    now rewrite Hu, Hv, He.
  - destruct (str_truthy (personality u)) eqn:Hu; [| reflexivity].
    destruct (str_truthy (personality v)) eqn:Hv; [| reflexivity].
    destruct (opt_str_eqb (personality u) (personality v)) eqn:He; [| reflexivity].
    exfalso. apply Hn. rewrite <- !str_truthy_present, <- opt_str_eqb_eq. auto.
Qed.

Lemma obind_some {A B : Type} (x : A) (f : A -> option B) : (Some x ≫= f) = f x.
Proof. reflexivity. Qed.

Lemma match_score_unfold (u v : User) (t i : float) :
  jaccard_similarity (tags u) (tags v) = Some t ->
  jaccard_similarity (interests u) (interests v) = Some i ->
  match_score u v =
    Some (py_round (py_min
            (PyFloat (fmul (fadd (fadd (fmul lit_0_6 t) (fmul lit_0_4 i))
                                 (personality_bonus u v))
                           (float_of_int 100)))
            (PyInt 100))).
Proof. intros Ht Hi. unfold match_score. rewrite Ht, Hi. reflexivity. Qed.

(** C1. The score is [round(min(raw, 1.0) * 100)] for
    [raw = 0.6 * jaccard(tags) + 0.4 * jaccard(interests) + bonus], where
    the bonus is 0.05 when both personalities are present (neither null
    nor empty) and equal as strings, and 0.0 otherwise; the clamp comes
    before the rounding, and rounding sends a tie to the even integer.
    The equation covers the exception of [jaccard_similarity] too. *)
Theorem match_score_formula (u v : User) :
  match_score u v =
    (tagSim ← jaccard_similarity (tags u) (tags v);
     interestSim ← jaccard_similarity (interests u) (interests v);
     Some (Spec.score tagSim interestSim
             (Spec.personalityBonus (personality u) (personality v)))) /\
  (forall k : Z,
     round_half_even (inject_Z k + (1 # 2)) = if Z.even k then k else (k + 1)%Z).
Proof.
  split; [| apply round_half_even_tie].
  destruct (jaccard_similarity (tags u) (tags v)) as [t |] eqn:Ht.
  2: { unfold match_score. rewrite Ht. reflexivity. }
  destruct (jaccard_similarity (interests u) (interests v)) as [i |] eqn:Hi.
  2: { unfold match_score. rewrite Ht, Hi. reflexivity. }
  rewrite (match_score_unfold u v t i Ht Hi), obind_some. cbv beta.
  rewrite obind_some. cbv beta. apply (f_equal Some).
  unfold Spec.score. rewrite <- personality_bonus_spec.
  fold lit_0_6 lit_0_4.
  apply clamp_before_round, raw_range.
  - eapply jaccard_similarity_range, Ht.
  - eapply jaccard_similarity_range, Hi.
  - apply personality_bonus_range.
Qed.

Lemma match_score_bounds (u v : User) (s : Z) :
  match_score u v = Some s -> (0 <= s <= 100)%Z.
Proof.
  destruct (jaccard_similarity (tags u) (tags v)) as [t |] eqn:Ht.
  2: { unfold match_score. rewrite Ht. discriminate. }
  destruct (jaccard_similarity (interests u) (interests v)) as [i |] eqn:Hi.
  2: { unfold match_score. rewrite Ht, Hi. discriminate. }
  rewrite (match_score_unfold u v t i Ht Hi). intros Hs.
  apply (inj Some) in Hs. subst s.
  pose proof (raw_range t i (personality_bonus u v)
                (jaccard_similarity_range _ _ _ Ht)
                (jaccard_similarity_range _ _ _ Hi)
                (personality_bonus_range u v)) as [Hl Hu].
  set (raw := fadd _ (personality_bonus u v)) in *.
  rewrite float_of_int_100. unfold py_min, fmul. cbn [num_value].
  assert (Hs : inject_Z 0 <= rnd (raw * 100) <= inject_Z 300).
  { apply rnd_range; [lia | lia |]. change (inject_Z 0) with 0.
    change (inject_Z 300) with 300. lra. }
  destruct (Qle_bool (rnd (raw * 100)) (inject_Z 100)) eqn:Hm; cbn [py_round]; [| lia].
  apply Qle_bool_iff in Hm. split.
  - apply round_half_even_ge. tauto.
  - apply round_half_even_le. exact Hm.
Qed.

Lemma is_str_list_strs (a : json) :
  is_str_list a = true -> exists l, a = strs l.
Proof.
  destruct a as [| | | | l |]; try discriminate. cbn [is_str_list].
  intros Hl. unfold strs.
  induction l as [| x l IH]; [now exists [] |].
  cbn in Hl. apply andb_prop in Hl as [Hx Hl].
  destruct (IH Hl) as (l' & [= ->]).
  destruct x; try discriminate. now exists (s :: l').
Qed.

Lemma jaccard_similarity_total (a b : json) :
  is_str_list a = true -> is_str_list b = true ->
  is_Some (jaccard_similarity a b).
Proof.
  intros (la & ->)%is_str_list_strs (lb & ->)%is_str_list_strs.
  rewrite (jaccard_sets _ _ _ _ (lowered_set_strs la) (lowered_set_strs lb)). eauto.
Qed.

Lemma match_score_total (u v : User) :
  well_typed u = true -> well_typed v = true -> is_Some (match_score u v).
Proof.
  unfold well_typed. intros [Hu1 Hu2]%andb_prop [Hv1 Hv2]%andb_prop.
  destruct (jaccard_similarity_total _ _ Hu1 Hv1) as [t Ht].
  destruct (jaccard_similarity_total _ _ Hu2 Hv2) as [i Hi].
  rewrite (match_score_unfold u v t i Ht Hi). eauto.
Qed.

(** C2. For every pair of profiles [match_score] returns an integer, and
    it lies in the closed interval [[0, 100]]. *)
Theorem match_score_in_0_100 (u v : User) :
  well_typed u = true -> well_typed v = true ->
  exists s : Z, match_score u v = Some s /\ (0 <= s <= 100)%Z.
Proof.
  intros Hu Hv. destruct (match_score_total u v Hu Hv) as [s Hs].
  exists s. split; [exact Hs |]. exact (match_score_bounds u v s Hs).
Qed.

(** C9. An empty personality counts as absent: when both personalities
    are the empty string, the bonus is 0.0 although the two strings are
    equal. *)
Theorem empty_personality_no_bonus (u v : User) :
  personality u = Some ""%string -> personality v = Some ""%string ->
  personality_bonus u v = 0.
Proof.
  intros Hu Hv. unfold personality_bonus. rewrite Hu, Hv. reflexivity.
Qed.

(** *** The ranking *)

Lemma insert_desc_perm (r : MatchResult) (l : list MatchResult) :
  insert_desc r l ≡ₚ r :: l.
Proof.
  induction l as [| x l IH]; cbn; [reflexivity |].
  destruct (score x <=? score r)%Z; [reflexivity |].
  rewrite IH. apply Permutation_swap.
Qed.

Lemma sort_desc_perm (l : list MatchResult) : sort_desc l ≡ₚ l.
Proof.
  induction l as [| r l IH]; cbn; [reflexivity |].
  rewrite insert_desc_perm. now rewrite IH.
Qed.

Lemma sort_desc_length (l : list MatchResult) : length (sort_desc l) = length l.
Proof. apply Permutation_length, sort_desc_perm. Qed.

Lemma insert_desc_sorted (r : MatchResult) (l : list MatchResult) :
  StronglySorted by_score_desc l -> StronglySorted by_score_desc (insert_desc r l).
Proof.
  induction 1 as [| x l Hs IH Hx]; cbn.
  - repeat constructor.
  - destruct (Z.leb_spec (score x) (score r)) as [Hle | Hgt].
    + constructor; [now constructor |].
      constructor; [exact Hle |].
      eapply Forall_impl; [exact Hx |]. unfold by_score_desc. intros y Hy. lia.
    + constructor; [exact IH |].
      rewrite insert_desc_perm. constructor; [unfold by_score_desc; lia | exact Hx].
Qed.

Lemma sort_desc_sorted (l : list MatchResult) :
  StronglySorted by_score_desc (sort_desc l).
Proof.
  induction l as [| r l IH]; cbn; [constructor | now apply insert_desc_sorted].
Qed.

(** Entries of one score keep their order: the sort is stable. *)
Lemma insert_desc_stable (s : Z) (r : MatchResult) (l : list MatchResult) :
  StronglySorted by_score_desc l ->
  filter (fun x => score x = s) (insert_desc r l) =
  filter (fun x => score x = s) (r :: l).
Proof.
  induction 1 as [| x l Hs IH Hx]; cbn [insert_desc]; [reflexivity |].
  destruct (Z.leb_spec (score x) (score r)) as [Hle | Hgt]; [reflexivity |].
  rewrite filter_cons, IH, !filter_cons.
  destruct (decide (score x = s)) as [Hxs | Hxs], (decide (score r = s)) as [Hrs | Hrs];
    try reflexivity. lia.
Qed.

Lemma sort_desc_stable (s : Z) (l : list MatchResult) :
  filter (fun x => score x = s) (sort_desc l) = filter (fun x => score x = s) l.
Proof.
  induction l as [| r l IH]; cbn [sort_desc foldr]; [reflexivity |].
  fold (sort_desc l). rewrite insert_desc_stable by apply sort_desc_sorted.
  now rewrite !filter_cons, IH.
Qed.

(** A sorted list is determined by its entries of each score in their
    order: whatever stable sort Python runs, its result is that of
    [sort_desc]. *)
Lemma sorted_stable_unique (l1 l2 : list MatchResult) :
  StronglySorted by_score_desc l1 -> StronglySorted by_score_desc l2 ->
  (forall s : Z, filter (fun r => score r = s) l1 = filter (fun r => score r = s) l2) ->
  l1 = l2.
Proof.
  assert (Hhead : forall x l y k,
             StronglySorted by_score_desc (y :: k) ->
             filter (fun r => score r = score x) (x :: l) =
             filter (fun r => score r = score x) (y :: k) ->
             (score x <= score y)%Z).
  { intros x l y k Hk He. rewrite filter_cons_True in He by reflexivity.
    assert (Hin : x ∈ filter (fun r => score r = score x) (y :: k))
      by (rewrite <- He; left).
    apply list_elem_of_filter in Hin as [_ Hin].
    apply StronglySorted_inv in Hk as [_ Hy].
    apply elem_of_cons in Hin as [-> | Hin]; [lia |].
    rewrite Forall_forall in Hy. apply Hy in Hin. exact Hin. }
  intros H1. revert l2. induction H1 as [| x l1 Hs1 IH Hx]; intros l2 H2 Hf.
  - destruct l2 as [| y l2]; [reflexivity |].
    specialize (Hf (score y)). rewrite filter_cons_True in Hf by reflexivity.
    discriminate.
  - destruct l2 as [| y l2].
    { specialize (Hf (score x)). rewrite filter_cons_True in Hf by reflexivity.
      discriminate. }
    assert (Hxy : score x = score y).
    { apply Z.le_antisymm.
      - eapply Hhead; [exact H2 | apply Hf].
      - eapply (Hhead y l2 x l1); [now constructor | symmetry; apply Hf]. }
    pose proof (Hf (score x)) as Hfx.
    rewrite filter_cons_True in Hfx by reflexivity.
    rewrite filter_cons_True in Hfx by (symmetry; exact Hxy).
    injection Hfx as -> Hfx. f_equal.
    apply StronglySorted_inv in H2 as [H2 _]. apply IH; [exact H2 |].
    intros s. specialize (Hf s). rewrite !filter_cons in Hf.
    destruct (decide (score y = s)) as [<- | Hne]; [exact Hfx | exact Hf].
Qed.

Lemma sort_desc_unique (l l' : list MatchResult) :
  StronglySorted by_score_desc l' ->
  (forall s : Z, filter (fun r => score r = s) l' = filter (fun r => score r = s) l) ->
  l' = sort_desc l.
Proof.
  intros Hs Hf. apply sorted_stable_unique; [exact Hs | apply sort_desc_sorted |].
  intros s. now rewrite Hf, sort_desc_stable.
Qed.

Lemma py_slice_to_prefix {A} (l : list A) (stop : Z) : py_slice_to l stop `prefix_of` l.
Proof.
  unfold py_slice_to. destruct (0 <=? stop)%Z; apply prefix_take.
Qed.

Lemma py_slice_to_length {A} (l : list A) (stop : Z) :
  length (py_slice_to l stop) =
  if (0 <=? stop)%Z then Nat.min (Z.to_nat stop) (length l)
  else Z.to_nat (Z.of_nat (length l) + stop).
Proof.
  unfold py_slice_to. destruct (Z.leb_spec 0 stop); rewrite length_take; lia.
Qed.

Lemma StronglySorted_prefix {A} (R : A -> A -> Prop) (l k : list A) :
  l `prefix_of` k -> StronglySorted R k -> StronglySorted R l.
Proof.
  intros [m ->] Hk. revert Hk. induction l as [| x l IH]; cbn; [constructor |].
  intros Hk. apply StronglySorted_inv in Hk as [Hs Hx].
  constructor; [now apply IH |].
  apply Forall_app in Hx. tauto.
Qed.

Lemma filter_prefix {A} (P : A -> Prop) `{forall x, Decision (P x)} (l k : list A) :
  l `prefix_of` k -> filter P l `prefix_of` filter P k.
Proof. intros [m ->]. rewrite filter_app. now exists (filter P m). Qed.

Lemma score_all_spec (me : User) (others : list User) (all : list MatchResult) :
  score_all me others = Some all -> Forall2 (scored me) others all.
Proof.
  unfold score_all. intros Hall. apply mapM_Some_1 in Hall.
  eapply Forall2_impl; [exact Hall |]. cbv beta. intros other r Hr.
  destruct (match_score me other) as [s |] eqn:Hs; [| discriminate].
  apply (inj Some) in Hr. subst r. split; [reflexivity | exact Hs].
Qed.

Lemma score_all_total (me : User) (others : list User) :
  well_typed me = true -> Forall (fun u => well_typed u = true) others ->
  is_Some (score_all me others).
Proof.
  intros Hme Ho. unfold score_all. apply mapM_is_Some.
  eapply Forall_impl; [exact Ho |]. cbv beta. intros other Hother.
  destruct (match_score_total me other Hme Hother) as [s Hs].
  unfold compose. rewrite Hs, obind_some. eauto.
Qed.

Lemma rank_unfold (me : User) (others : list User) (limit : Z) (all : list MatchResult) :
  score_all me others = Some all ->
  rank me others limit = Some (py_slice_to (sort_desc all) limit).
Proof. intros Hall. unfold rank. rewrite Hall. reflexivity. Qed.

(** C6. The results are in non-increasing order of score, and results of
    equal score are in the order of their candidates in the input: for
    every score, the results with that score are an initial part of the
    entries with that score in input order. *)
Theorem rank_sorted_stable (me : User) (others : list User) (limit : Z) :
  well_typed me = true -> Forall (fun u => well_typed u = true) others ->
  exists all results : list MatchResult,
    score_all me others = Some all /\
    Forall2 (scored me) others all /\
    rank me others limit = Some results /\
    StronglySorted by_score_desc results /\
    forall s : Z,
      filter (fun r => score r = s) results `prefix_of`
      filter (fun r => score r = s) all.
Proof.
  intros Hme Ho. destruct (score_all_total me others Hme Ho) as [all Hall].
  exists all, (py_slice_to (sort_desc all) limit).
  split; [exact Hall |]. split; [now apply score_all_spec |].
  split; [now apply rank_unfold |]. split.
  - eapply StronglySorted_prefix; [apply py_slice_to_prefix | apply sort_desc_sorted].
  - intros s. rewrite <- (sort_desc_stable s all).
    apply filter_prefix, py_slice_to_prefix.
Qed.

(** C7. With a positive limit there are exactly
    [min(limit, len(candidates))] results.  Nothing is filtered out:
    before the truncation every candidate has exactly one entry, and the
    sort only permutes the entries. *)
Theorem rank_length (me : User) (others : list User) (limit : Z) :
  (0 < limit)%Z ->
  well_typed me = true -> Forall (fun u => well_typed u = true) others ->
  exists all results : list MatchResult,
    score_all me others = Some all /\
    Forall2 (scored me) others all /\
    sort_desc all ≡ₚ all /\
    rank me others limit = Some results /\
    results = take (Z.to_nat limit) (sort_desc all) /\
    length results = Nat.min (Z.to_nat limit) (length others).
Proof.
  intros Hl Hme Ho. destruct (score_all_total me others Hme Ho) as [all Hall].
  pose proof (score_all_spec me others all Hall) as Hsc.
  exists all, (py_slice_to (sort_desc all) limit).
  split; [exact Hall |]. split; [exact Hsc |].
  split; [apply sort_desc_perm |]. split; [now apply rank_unfold |].
  assert (Hp : (0 <=? limit)%Z = true) by (apply Z.leb_le; lia).
  split.
  - unfold py_slice_to. now rewrite Hp.
  - rewrite py_slice_to_length, Hp, sort_desc_length.
    now rewrite (Forall2_length _ _ _ Hsc).
Qed.

(** C4, as the code has it.  With limit 0 the result is empty.  With a
    negative limit the slice drops the last [-limit] entries of the
    sorted list, so the result is empty exactly when there are at most
    [-limit] candidates. *)
Theorem rank_nonpositive_limit (me : User) (others : list User) (limit : Z) :
  (limit <= 0)%Z ->
  well_typed me = true -> Forall (fun u => well_typed u = true) others ->
  exists all results : list MatchResult,
    score_all me others = Some all /\
    rank me others limit = Some results /\
    results = (if (limit =? 0)%Z then []
               else take (length others - Z.to_nat (- limit)) (sort_desc all)) /\
    (results = [] <-> limit = 0%Z \/ (Z.of_nat (length others) <= - limit)%Z).
Proof.
  intros Hl Hme Ho. destruct (score_all_total me others Hme Ho) as [all Hall].
  pose proof (Forall2_length _ _ _ (score_all_spec me others all Hall)) as Hlen.
  exists all, (py_slice_to (sort_desc all) limit).
  split; [exact Hall |]. split; [now apply rank_unfold |].
  assert (Heq : py_slice_to (sort_desc all) limit =
                if (limit =? 0)%Z then []
                else take (length others - Z.to_nat (- limit)) (sort_desc all)).
  { unfold py_slice_to.
    destruct (Z.eqb_spec limit 0) as [-> | Hne]; [reflexivity |].
    destruct (Z.leb_spec 0 limit); [lia |].
    f_equal. rewrite sort_desc_length. lia. }
  split; [exact Heq |]. rewrite Heq.
  destruct (Z.eqb_spec limit 0) as [-> | Hne]; [tauto |].
  rewrite <- length_zero_iff_nil, length_take, sort_desc_length. lia.
Qed.

(** *** The stored lists *)

Lemma py_or_not_null (v d : json) : d <> JNull -> py_or v d <> JNull.
Proof.
  intros Hd. unfold py_or. destruct (truthy v) eqn:Hv; [| exact Hd].
  intros ->. discriminate.
Qed.

(** C5, as the code has it.  Construction, update and read-back keep the
    value given to the setter as it is, a list with its duplicates and
    letter case; a null or otherwise false value is stored and read back
    as the empty list, so the value read is never null, and a null column
    reads as the empty list.  Scoring alone builds sets: of a list of
    strings it takes the lower-cased elements, without duplicates, and of
    a null value the empty set. *)
Theorem tags_stored_as_given (u : User) (v : json) (a : list string) :
  tags (set_tags u v) = py_or v (JList []) /\
  interests (set_interests u v) = py_or v (JList []) /\
  pub_tags (to_public_dict (set_tags u v)) = py_or v (JList []) /\
  pub_interests (to_public_dict (set_interests u v)) = py_or v (JList []) /\
  tags (set_tags u v) <> JNull /\
  interests (set_interests u v) <> JNull /\
  tags (set_tags u JNull) = JList [] /\
  interests (set_interests u JNull) = JList [] /\
  loads_or_empty SqlNull = Some (JList []) /\
  lowered_set JNull = Some ∅ /\
  exists S : gset string,
    lowered_set (strs a) = Some S /\
    NoDup (elements S) /\
    forall s : string, s ∈ elements S <-> exists t, t ∈ a /\ s = str_lower t.
Proof.
  repeat (split; [first [reflexivity | now apply py_or_not_null] |]).
  exists (Spec.label_set a). split; [apply lowered_set_strs |].
  split; [apply NoDup_elements |].
  intros s. rewrite elem_of_elements. apply elem_of_label_set.
Qed.

(** C10, as the code has it.  The accessors return a value for every
    content of the column and never raise: the empty list for a null,
    empty or malformed column, and otherwise the decoded value, whatever
    its shape.  Scoring is defined for every pair of profiles whose
    columns read as lists of strings, which null and malformed columns
    do. *)
Theorem accessors_total (u v : User) :
  tags u = match tags_json u with JsonText x => x | _ => JList [] end /\
  interests u = match interests_json u with JsonText x => x | _ => JList [] end /\
  is_str_list (tags u) =
    match tags_json u with JsonText x => is_str_list x | _ => true end /\
  is_str_list (interests u) =
    match interests_json u with JsonText x => is_str_list x | _ => true end /\
  (well_typed u = true -> well_typed v = true -> is_Some (match_score u v)).
Proof.
  unfold tags, interests.
  repeat split; try (now destruct (tags_json u)); try (now destruct (interests_json u)).
  apply match_score_total.
Qed.

(** *** The route *)

Lemma match_for_user_missing_id (db : list User) (limit : option Z) :
  match_for_user db None limit = Error400 /\
  match_for_user db (Some 0%Z) limit = Error400.
Proof. split; reflexivity. Qed.

Lemma match_for_user_found (db : list User) (uid : Z) (limit : option Z) (me : User) :
  uid <> 0%Z ->
  List.find (fun u => (user_id u =? uid)%Z) db = Some me ->
  match_for_user db (Some uid) limit =
    match rank me (List.filter (fun u => negb (user_id u =? user_id me)%Z) db)
               (default 20%Z limit) with
    | Some results => Ok200 results
    | None => Error500
    end.
Proof.
  intros Hu Hf. unfold match_for_user. rewrite Hf.
  destruct uid; [congruence | reflexivity | reflexivity].
Qed.

End MatchingFacts.

(** ** Further properties of the engine *)

Section EngineFacts.

Context `{StrOps}.

Import Binary64 Binary64Facts Binary64Order.

(** *** Similarity *)

Lemma lowered_set_scorable (v : json) : is_Some (lowered_set v) <-> scorable v = true.
Proof.
  unfold lowered_set. rewrite fmap_is_Some.
  destruct v as [| b | x | s | l | kvs]; cbn [scorable].
  - split; [reflexivity | intros _; now eexists].
  - destruct b; cbn; split; try discriminate; try reflexivity;
      [intros [? [=]] | intros _; now eexists].
  - unfold py_or. cbn [truthy]. destruct (Qeq_bool x 0); cbn;
      split; try discriminate; try reflexivity; [intros _; now eexists | intros [? [=]]].
  - split; [reflexivity | intros _]. unfold py_or. destruct (truthy (JStr s)); now eexists.
  - assert (Hl : py_or (JList l) (JList []) = JList l) by (now destruct l).
    rewrite Hl. cbn [lowered]. rewrite mapM_is_Some, forallb_forall, Forall_forall.
    split; intros Hf e He.
    + apply bool_decide_eq_true. apply list_elem_of_In in He. specialize (Hf e He).
      unfold compose in Hf. now rewrite fmap_is_Some in Hf.
    + unfold compose. rewrite fmap_is_Some. apply list_elem_of_In in He.
      specialize (Hf e He). now apply bool_decide_eq_true in Hf.
  - split; [reflexivity | intros _]. unfold py_or. destruct (truthy (JObj kvs)); now eexists.
Qed.

Lemma jaccard_similarity_cases (a b : json) :
  jaccard_similarity a b =
    match lowered_set a, lowered_set b with
    | Some A, Some B => Some (rnd (Spec.jaccard A B))
    | _, _ => None
    end.
Proof.
  destruct (lowered_set a) as [A |] eqn:Ha.
  - destruct (lowered_set b) as [B |] eqn:Hb.
    + now apply jaccard_sets.
    + unfold jaccard_similarity. rewrite Ha, Hb. reflexivity.
  - unfold jaccard_similarity. rewrite Ha. reflexivity.
Qed.

Lemma jaccard_similarity_is_Some (a b : json) :
  is_Some (jaccard_similarity a b) <-> scorable a = true /\ scorable b = true.
Proof.
  rewrite jaccard_similarity_cases, <- !lowered_set_scorable.
  destruct (lowered_set a) as [A |], (lowered_set b) as [B |]; split.
  - intros _. split; eauto.
  - intros _. eauto.
  - intros Hn. now apply is_Some_None in Hn.
  - intros [_ Hn]. now apply is_Some_None in Hn.
  - intros Hn. now apply is_Some_None in Hn.
  - intros [Hn _]. now apply is_Some_None in Hn.
  - intros Hn. now apply is_Some_None in Hn.
  - intros [Hn _]. now apply is_Some_None in Hn.
Qed.

Local Open Scope Q_scope.

Lemma spec_jaccard_same (A : gset string) : A <> ∅ -> Spec.jaccard A A == 1.
Proof.
  intros Hne. unfold Spec.jaccard.
  rewrite (bool_decide_eq_false_2 _ Hne). cbn [andb].
  assert (Hi : A ∩ A = A) by set_solver. assert (Hu : A ∪ A = A) by set_solver.
  rewrite Hi, Hu. apply Qmult_inv_r.
  intros Hz. apply Hne, leibniz_equiv, size_empty_iff.
  unfold Qeq in Hz. cbn in Hz. lia.
Qed.

Lemma spec_jaccard_disjoint (A B : gset string) : A ## B -> Spec.jaccard A B == 0.
Proof.
  intros Hd. unfold Spec.jaccard.
  destruct (bool_decide (A = ∅) && bool_decide (B = ∅)); [reflexivity |].
  assert (Hi : A ∩ B = ∅) by set_solver. rewrite Hi, size_empty.
  unfold Qdiv. apply Qmult_0_l.
Qed.

Lemma spec_jaccard_sym (A B : gset string) : Spec.jaccard A B = Spec.jaccard B A.
Proof.
  unfold Spec.jaccard. rewrite (andb_comm (bool_decide (A = ∅))).
  assert (Hi : A ∩ B = B ∩ A) by set_solver.
  assert (Hu : A ∪ B = B ∪ A) by set_solver.
  now rewrite Hi, Hu.
Qed.

Lemma rnd_one : rnd 1 = 1.
Proof. vm_compute. reflexivity. Qed.

Lemma jaccard_same_sets (a b : json) (A : gset string) :
  lowered_set a = Some A -> lowered_set b = Some A -> A <> ∅ ->
  jaccard_similarity a b = Some 1.
Proof.
  intros Ha Hb Hne. rewrite (jaccard_sets a b A A Ha Hb). f_equal.
  rewrite <- rnd_one. apply rnd_comp, spec_jaccard_same, Hne.
Qed.

Lemma jaccard_disjoint_sets (a b : json) (A B : gset string) :
  lowered_set a = Some A -> lowered_set b = Some B -> A ## B ->
  jaccard_similarity a b = Some 0.
Proof.
  intros Ha Hb Hd. rewrite (jaccard_sets a b A B Ha Hb). f_equal.
  apply rnd_zero, spec_jaccard_disjoint, Hd.
Qed.

(** X1. Two values whose lower-cased sets coincide and are not empty
    have similarity exactly 1.0; in particular a non-empty list has
    similarity 1.0 with itself. *)
Theorem jaccard_similarity_equal_sets (a b : json) (A : gset string) :
  lowered_set a = Some A -> lowered_set b = Some A -> A <> ∅ ->
  jaccard_similarity a b = Some 1 /\ jaccard_similarity a a = Some 1.
Proof.
  intros Ha Hb Hne. split; now apply (jaccard_same_sets _ _ A).
Qed.

(** X2. The similarity of a list of strings depends only on which
    lower-cased labels occur in it: order, repetition and letter case of
    the labels do not matter. *)
Theorem jaccard_similarity_labels_only (a a' : list string) (b : json) :
  (forall s : string, s ∈ str_lower <$> a <-> s ∈ str_lower <$> a') ->
  jaccard_similarity (strs a) b = jaccard_similarity (strs a') b /\
  jaccard_similarity b (strs a) = jaccard_similarity b (strs a').
Proof.
  intros Hs.
  assert (He : Spec.label_set a = Spec.label_set a').
  { apply set_eq. intros s. unfold Spec.label_set.
    rewrite !elem_of_list_to_set. apply Hs. }
  rewrite !jaccard_similarity_cases, !lowered_set_strs, He. split; reflexivity.
Qed.

(** X3. Values without a common lower-cased label have similarity
    exactly 0.0; a null value counts as the empty list, so its
    similarity with anything that can be scored is 0.0. *)
Theorem jaccard_similarity_disjoint (a b : json) (A B : gset string) :
  lowered_set a = Some A -> lowered_set b = Some B -> A ## B ->
  jaccard_similarity a b = Some 0 /\
  jaccard_similarity JNull b = Some 0 /\
  jaccard_similarity b JNull = Some 0.
Proof.
  intros Ha Hb Hd. split; [now apply (jaccard_disjoint_sets a b A B) |].
  split.
  - apply (jaccard_disjoint_sets JNull b ∅ B); [reflexivity | exact Hb | set_solver].
  - apply (jaccard_disjoint_sets b JNull B ∅); [exact Hb | reflexivity | set_solver].
Qed.

(** *** The score *)

Lemma jaccard_similarity_comm (a b : json) :
  jaccard_similarity a b = jaccard_similarity b a.
Proof.
  rewrite !jaccard_similarity_cases.
  destruct (lowered_set a) as [A |], (lowered_set b) as [B |]; try reflexivity.
  now rewrite spec_jaccard_sym.
Qed.

Lemma opt_str_eqb_sym (p q : option string) : opt_str_eqb p q = opt_str_eqb q p.
Proof.
  destruct p as [s |], q as [t |]; cbn; try reflexivity. apply String.eqb_sym.
Qed.

Lemma personality_bonus_sym (u v : User) : personality_bonus u v = personality_bonus v u.
Proof.
  unfold personality_bonus.
  rewrite (andb_comm (str_truthy (personality u))), (opt_str_eqb_sym (personality u)).
  reflexivity.
Qed.

Lemma match_score_raises_l (u v : User) :
  jaccard_similarity (tags u) (tags v) = None -> match_score u v = None.
Proof. intros Ht. unfold match_score. rewrite Ht. reflexivity. Qed.

Lemma match_score_raises_r (u v : User) (t : float) :
  jaccard_similarity (tags u) (tags v) = Some t ->
  jaccard_similarity (interests u) (interests v) = None -> match_score u v = None.
Proof. intros Ht Hi. unfold match_score. rewrite Ht, Hi. reflexivity. Qed.

(** X4. [match_score] raises exactly when the tags or interests of one
    of the two users is [True], a number other than zero, or a list with
    an item that is no string; on all other stored values it returns a
    score. *)
Theorem match_score_defined_iff (u v : User) :
  is_Some (match_score u v) <->
  scorable (tags u) = true /\ scorable (tags v) = true /\
  scorable (interests u) = true /\ scorable (interests v) = true.
Proof.
  pose proof (jaccard_similarity_is_Some (tags u) (tags v)) as Ht.
  pose proof (jaccard_similarity_is_Some (interests u) (interests v)) as Hi.
  destruct (jaccard_similarity (tags u) (tags v)) as [t |] eqn:Et.
  - destruct (jaccard_similarity (interests u) (interests v)) as [i |] eqn:Ei.
    + rewrite (match_score_unfold u v t i Et Ei). split; [| eauto].
      intros _. destruct Ht as [Ht _], Hi as [Hi _].
      destruct Ht as [? ?]; [eauto |]. destruct Hi as [? ?]; [eauto |]. tauto.
    + rewrite (match_score_raises_r u v t Et Ei). split.
      * intros Hn. now apply is_Some_None in Hn.
      * intros (_ & _ & H3 & H4). destruct Hi as [_ Hi].
        apply is_Some_None in Hi; tauto.
  - rewrite (match_score_raises_l u v Et). split.
    + intros Hn. now apply is_Some_None in Hn.
    + intros (H1 & H2 & _). destruct Ht as [_ Ht].
      apply is_Some_None in Ht; tauto.
Qed.

(** X5. The score is symmetric: [match_score(u, v)] and
    [match_score(v, u)] are the same integer, or both raise. *)
Theorem match_score_sym (u v : User) : match_score u v = match_score v u.
Proof.
  destruct (jaccard_similarity (tags u) (tags v)) as [t |] eqn:Et.
  - destruct (jaccard_similarity (interests u) (interests v)) as [i |] eqn:Ei.
    + rewrite (match_score_unfold u v t i Et Ei).
      rewrite jaccard_similarity_comm in Et, Ei.
      rewrite (match_score_unfold v u t i Et Ei).
      now rewrite personality_bonus_sym.
    + rewrite (match_score_raises_r u v t Et Ei).
      rewrite jaccard_similarity_comm in Et, Ei.
      now rewrite (match_score_raises_r v u t Et Ei).
  - rewrite (match_score_raises_l u v Et).
    rewrite jaccard_similarity_comm in Et.
    now rewrite (match_score_raises_l v u Et).
Qed.

Local Open Scope Q_scope.

(** The sixteen corners of the score. *)
Lemma score_corners :
  let s := fun t i b : float =>
    py_round (py_min (PyFloat (fmul (fadd (fadd (fmul lit_0_6 t) (fmul lit_0_4 i)) b)
                                    (float_of_int 100))) (PyInt 100)) in
  s 1 1 0 = 100%Z /\ s 1 1 lit_0_05 = 100%Z /\
  s 1 0 0 = 60%Z /\ s 1 0 lit_0_05 = 65%Z /\
  s 0 1 0 = 40%Z /\ s 0 1 lit_0_05 = 45%Z /\
  s 0 0 0 = 0%Z /\ s 0 0 lit_0_05 = 5%Z.
Proof. vm_compute. repeat split. Qed.

Lemma match_score_corner (u v : User) (t i : float) :
  jaccard_similarity (tags u) (tags v) = Some t ->
  jaccard_similarity (interests u) (interests v) = Some i ->
  match_score u v =
    Some (py_round (py_min
            (PyFloat (fmul (fadd (fadd (fmul lit_0_6 t) (fmul lit_0_4 i))
                            (if bool_decide (Spec.present (personality u) /\
                                             Spec.present (personality v) /\
                                             personality u = personality v)
                             then lit_0_05 else 0))
                           (float_of_int 100)))
            (PyInt 100))).
Proof.
  intros Ht Hi. rewrite (match_score_unfold u v t i Ht Hi).
  now rewrite personality_bonus_spec.
Qed.

(** X6. Two users whose tag sets coincide and whose interest sets
    coincide, none of them empty, score 100, whatever their
    personalities. *)
Theorem match_score_identical (u v : User) (T I : gset string) :
  lowered_set (tags u) = Some T -> lowered_set (tags v) = Some T -> T <> ∅ ->
  lowered_set (interests u) = Some I -> lowered_set (interests v) = Some I -> I <> ∅ ->
  match_score u v = Some 100%Z.
Proof.
  intros Hu Hv HT Hu' Hv' HI.
  rewrite (match_score_corner u v 1 1
             (jaccard_same_sets _ _ T Hu Hv HT) (jaccard_same_sets _ _ I Hu' Hv' HI)).
  f_equal. destruct score_corners as (H1 & H2 & _).
  destruct (bool_decide _); [exact H2 | exact H1].
Qed.

(** X7. Two users without a common tag and without a common interest
    score 5 when both personalities are present and equal, and 0
    otherwise. *)
Theorem match_score_no_overlap (u v : User) (T T' I I' : gset string) :
  lowered_set (tags u) = Some T -> lowered_set (tags v) = Some T' -> T ## T' ->
  lowered_set (interests u) = Some I -> lowered_set (interests v) = Some I' -> I ## I' ->
  match_score u v =
    Some (if bool_decide (Spec.present (personality u) /\
                          Spec.present (personality v) /\
                          personality u = personality v)
          then 5 else 0)%Z.
Proof.
  intros Hu Hv HT Hu' Hv' HI.
  rewrite (match_score_corner u v 0 0
             (jaccard_disjoint_sets _ _ T T' Hu Hv HT)
             (jaccard_disjoint_sets _ _ I I' Hu' Hv' HI)).
  f_equal. destruct score_corners as (_ & _ & _ & _ & _ & _ & H1 & H2).
  destruct (bool_decide _); [exact H2 | exact H1].
Qed.

(** X8. The weights: equal non-empty tag sets and no common interest
    give 60, no common tag and equal non-empty interest sets give 40;
    each is 5 more when both personalities are present and equal. *)
Theorem match_score_weights (u v : User) (A B B' : gset string) :
  A <> ∅ -> B ## B' ->
  let bonus := if bool_decide (Spec.present (personality u) /\
                               Spec.present (personality v) /\
                               personality u = personality v)
               then 5%Z else 0%Z in
  (lowered_set (tags u) = Some A -> lowered_set (tags v) = Some A ->
   lowered_set (interests u) = Some B -> lowered_set (interests v) = Some B' ->
   match_score u v = Some (60 + bonus)%Z) /\
  (lowered_set (tags u) = Some B -> lowered_set (tags v) = Some B' ->
   lowered_set (interests u) = Some A -> lowered_set (interests v) = Some A ->
   match_score u v = Some (40 + bonus)%Z).
Proof.
  intros HA HB bonus. subst bonus.
  destruct score_corners as (_ & _ & H60 & H65 & H40 & H45 & _).
  split; intros H1 H2 H3 H4.
  - rewrite (match_score_corner u v 1 0
               (jaccard_same_sets _ _ A H1 H2 HA) (jaccard_disjoint_sets _ _ B B' H3 H4 HB)).
    f_equal. destruct (bool_decide _); [exact H65 | exact H60].
  - rewrite (match_score_corner u v 0 1
               (jaccard_disjoint_sets _ _ B B' H1 H2 HB) (jaccard_same_sets _ _ A H3 H4 HA)).
    f_equal. destruct (bool_decide _); [exact H45 | exact H40].
Qed.

Lemma fmul_mono (c x y : float) : 0 <= c -> 0 <= x -> x <= y -> 0 <= fmul c x <= fmul c y.
Proof.
  intros Hc Hx Hxy. unfold fmul.
  assert (H0 : 0 <= c * x) by (apply Qmult_le_0_compat; assumption).
  assert (H1 : c * x <= c * y).
  { rewrite !(Qmult_comm c). apply Qmult_le_compat_r; assumption. }
  split; [now apply rnd_nonneg | now apply rnd_mono].
Qed.

Lemma fadd_mono (x x' y y' : float) :
  0 <= x <= x' -> 0 <= y <= y' -> 0 <= fadd x y <= fadd x' y'.
Proof.
  intros Hx Hy. unfold fadd. split; [apply rnd_nonneg; lra | apply rnd_mono; lra].
Qed.

Lemma round_min_mono (x y : float) :
  x <= y ->
  (py_round (py_min (PyFloat x) (PyInt 100)) <= py_round (py_min (PyFloat y) (PyInt 100)))%Z.
Proof.
  intros Hxy. unfold py_min. cbn [num_value].
  destruct (Qle_bool y (inject_Z 100)) eqn:Hy.
  - apply Qle_bool_iff in Hy.
    assert (Hx : Qle_bool x (inject_Z 100) = true) by (apply Qle_bool_iff; lra).
    rewrite Hx. cbn [py_round]. now apply round_half_even_mono.
  - destruct (Qle_bool x (inject_Z 100)) eqn:Hx; cbn [py_round]; [| lia].
    apply Qle_bool_iff in Hx. now apply round_half_even_le.
Qed.

(** X9. The score is monotone: a candidate whose tag similarity,
    interest similarity and personality bonus are each at least those of
    another candidate never scores lower.  Rounding in the float
    arithmetic does not break the order. *)
Theorem match_score_monotone (u v w : User) (t t' i i' : float) :
  jaccard_similarity (tags u) (tags v) = Some t ->
  jaccard_similarity (tags u) (tags w) = Some t' ->
  jaccard_similarity (interests u) (interests v) = Some i ->
  jaccard_similarity (interests u) (interests w) = Some i' ->
  t <= t' -> i <= i' -> personality_bonus u v <= personality_bonus u w ->
  exists s s' : Z,
    match_score u v = Some s /\ match_score u w = Some s' /\ (s <= s')%Z.
Proof.
  intros Ht Ht' Hi Hi' Htt Hii Hbb.
  rewrite (match_score_unfold u v t i Ht Hi), (match_score_unfold u w t' i' Ht' Hi').
  eexists _, _. split; [reflexivity |]. split; [reflexivity |].
  destruct lit_range as (H6 & H4 & _).
  pose proof (jaccard_similarity_range _ _ _ Ht) as Rt.
  pose proof (jaccard_similarity_range _ _ _ Hi) as Ri.
  pose proof (personality_bonus_range u v) as Rb.
  pose proof (fmul_mono lit_0_6 t t' ltac:(tauto) ltac:(tauto) Htt) as Ha.
  pose proof (fmul_mono lit_0_4 i i' ltac:(tauto) ltac:(tauto) Hii) as Hb.
  pose proof (fadd_mono _ _ _ _ Ha Hb) as Hab.
  pose proof (fadd_mono _ _ _ _ Hab (conj (proj1 Rb) Hbb)) as Hraw.
  apply round_min_mono. unfold fmul. rewrite float_of_int_100.
  apply rnd_mono; [| apply Qmult_le_compat_r; [tauto | lra]].
  apply Qmult_le_0_compat; [tauto | lra].
Qed.

(** *** The ranking *)

Lemma rank_Some_inv (me : User) (others : list User) (limit : Z)
    (results : list MatchResult) :
  rank me others limit = Some results ->
  exists all, score_all me others = Some all /\
              results = py_slice_to (sort_desc all) limit.
Proof.
  unfold rank. destruct (score_all me others) as [all |]; [| discriminate].
  rewrite obind_some. intros Hr. apply (inj Some) in Hr. eauto.
Qed.

Lemma score_all_None_iff (me : User) (others : list User) :
  score_all me others = None <->
  exists other, other ∈ others /\ match_score me other = None.
Proof.
  rewrite eq_None_not_Some. unfold score_all. rewrite mapM_is_Some.
  rewrite <- Exists_Forall_neg, Exists_exists.
  2: { intros other. unfold compose. destruct (match_score me other); [left | right].
       - rewrite obind_some. eauto.
       - intros Hn. now apply is_Some_None in Hn. }
  split; intros (other & Hin & Hn); exists other; (split; [exact Hin |]).
  - unfold compose in Hn. destruct (match_score me other) as [s |]; [| reflexivity].
    exfalso. apply Hn. rewrite obind_some. eauto.
  - unfold compose. rewrite Hn. intros Hs. now apply is_Some_None in Hs.
Qed.

Lemma rank_None_iff (me : User) (others : list User) (limit : Z) :
  rank me others limit = None <-> score_all me others = None.
Proof.
  unfold rank. destruct (score_all me others) as [all |].
  - rewrite obind_some. split; discriminate.
  - split; reflexivity.
Qed.

Lemma StronglySorted_app_inv {A} (R : A -> A -> Prop) (l k : list A) :
  StronglySorted R (l ++ k) -> forall x y, x ∈ l -> y ∈ k -> R x y.
Proof.
  induction l as [| a l IH]; cbn; intros Hs x y Hx Hy; [set_solver |].
  apply StronglySorted_inv in Hs as [Hs Ha].
  apply elem_of_cons in Hx as [-> | Hx]; [| now apply IH].
  rewrite Forall_forall in Ha. apply Ha. apply elem_of_app. now right.
Qed.

Lemma py_slice_to_take {A} (l : list A) (stop : Z) :
  exists n, py_slice_to l stop = take n l.
Proof. unfold py_slice_to. destruct (0 <=? stop)%Z; eauto. Qed.

Lemma score_all_users (me : User) (others : list User) (all : list MatchResult) :
  score_all me others = Some all -> user <$> all = to_public_dict <$> others.
Proof.
  intros Hall. apply score_all_spec in Hall.
  induction Hall as [| other r others all [Hu _] _ IH]; [reflexivity |].
  cbn. now rewrite Hu, IH.
Qed.

(** X10. A smaller limit gives the beginning of the list a larger limit
    gives: the results for limit [k] are the first [k] results for any
    limit [k' >= k]. *)
Theorem rank_limit_prefix (me : User) (others : list User) (k k' : Z)
    (results : list MatchResult) :
  (0 <= k <= k')%Z ->
  rank me others k' = Some results ->
  rank me others k = Some (take (Z.to_nat k) results).
Proof.
  intros Hk Hr. apply rank_Some_inv in Hr as (all & Hall & ->).
  rewrite (rank_unfold me others k all Hall). f_equal.
  unfold py_slice_to.
  assert (H1 : (0 <=? k)%Z = true) by (apply Z.leb_le; lia).
  assert (H2 : (0 <=? k')%Z = true) by (apply Z.leb_le; lia).
  rewrite H1, H2, take_take. f_equal. lia.
Qed.

(** X11. Truncation keeps the best: for every limit, the results and the
    entries left out together are all entries, and no entry left out has
    a higher score than a result. *)
Theorem rank_keeps_the_best (me : User) (others : list User) (limit : Z)
    (all : list MatchResult) :
  score_all me others = Some all ->
  exists kept dropped : list MatchResult,
    rank me others limit = Some kept /\
    kept ++ dropped ≡ₚ all /\
    forall r r', r ∈ kept -> r' ∈ dropped -> (score r' <= score r)%Z.
Proof.
  intros Hall. destruct (py_slice_to_take (sort_desc all) limit) as [n Hn].
  exists (take n (sort_desc all)), (drop n (sort_desc all)).
  split; [rewrite (rank_unfold me others limit all Hall); now rewrite Hn |].
  split; [rewrite take_drop; apply sort_desc_perm |].
  intros r r' Hr Hr'.
  apply (StronglySorted_app_inv by_score_desc _ _
           ltac:(rewrite take_drop; apply sort_desc_sorted) r r' Hr Hr').
Qed.

(** X12. With a limit of at least the number of candidates nobody is
    left out: the users of the results are the candidates, each once. *)
Theorem rank_complete (me : User) (others : list User) (limit : Z)
    (results : list MatchResult) :
  (Z.of_nat (length others) <= limit)%Z ->
  rank me others limit = Some results ->
  user <$> results ≡ₚ to_public_dict <$> others /\
  length results = length others.
Proof.
  intros Hl Hr. apply rank_Some_inv in Hr as (all & Hall & ->).
  pose proof (Forall2_length _ _ _ (score_all_spec me others all Hall)) as Hlen.
  assert (Hs : py_slice_to (sort_desc all) limit = sort_desc all).
  { unfold py_slice_to.
    assert (H1 : (0 <=? limit)%Z = true) by (apply Z.leb_le; lia).
    rewrite H1. apply firstn_all2. rewrite sort_desc_length. lia. }
  rewrite Hs. split.
  - rewrite <- (score_all_users me others all Hall). now rewrite sort_desc_perm.
  - rewrite sort_desc_length. lia.
Qed.

(** X13. There are no partial results: [rank] raises exactly when the
    score of one candidate raises, whatever the limit, also when the
    limit would have cut that candidate off. *)
Theorem rank_raises_iff (me : User) (others : list User) (limit : Z) :
  rank me others limit = None <->
  exists other, other ∈ others /\ match_score me other = None.
Proof. rewrite rank_None_iff. apply score_all_None_iff. Qed.

(** *** The match route *)

Lemma lookup_user_Some (db : list User) (uid : Z) (u : User) :
  lookup_user db uid = Some u -> u ∈ db /\ user_id u = uid.
Proof.
  unfold lookup_user. intros Hf. apply find_some in Hf as [Hin He].
  split; [now apply list_elem_of_In | now apply Z.eqb_eq].
Qed.


Lemma match_for_user_unfold (db : list User) (uid : Z) (limit : option Z) :
  uid <> 0%Z ->
  match_for_user db (Some uid) limit =
    match lookup_user db uid with
    | None => Error404
    | Some me =>
        match rank me (List.filter (fun u => negb (user_id u =? user_id me)%Z) db)
                   (default 20%Z limit) with
        | Some results => Ok200 results
        | None => Error500
        end
    end.
Proof. intros Hu. unfold match_for_user, lookup_user. destruct uid; [congruence | |]; reflexivity. Qed.

Lemma elem_of_others (db : list User) (me other : User) :
  other ∈ List.filter (fun u => negb (user_id u =? user_id me)%Z) db <->
  other ∈ db /\ user_id other <> user_id me.
Proof.
  rewrite list_elem_of_In, filter_In, <- list_elem_of_In, negb_true_iff, Z.eqb_neq.
  reflexivity.
Qed.


(** X15. The entries of a 200 response of [/api/match] are other users
    of the table, never the user asked for, each with its score for that
    user, an integer from 0 to 100; without a [limit] parameter there
    are at most 20 of them, and with a limit that is not negative at
    most that many. *)
Theorem match_for_user_results (db : list User) (uid : Z) (limit : option Z)
    (results : list MatchResult) :
  match_for_user db (Some uid) limit = Ok200 results ->
  exists me : User,
    lookup_user db uid = Some me /\
    Forall (fun r => exists other,
              other ∈ db /\ user_id other <> uid /\ pub_id (user r) <> uid /\
              user r = to_public_dict other /\
              match_score me other = Some (score r) /\
              (0 <= score r <= 100)%Z) results /\
    ((0 <= default 20%Z limit)%Z ->
     (length results <= Z.to_nat (default 20%Z limit))%nat).
Proof.
  intros Hm. assert (Hu : uid <> 0%Z) by (intros ->; discriminate).
  rewrite (match_for_user_unfold db uid limit Hu) in Hm.
  destruct (lookup_user db uid) as [me |] eqn:Hme; [| discriminate].
  destruct (lookup_user_Some db uid me Hme) as [_ Hid].
  destruct (rank me _ (default 20%Z limit)) as [res |] eqn:Hr; [| discriminate].
  injection Hm as ->. exists me. split; [reflexivity |].
  apply rank_Some_inv in Hr as (all & Hall & ->). split.
  - pose proof (score_all_spec me _ all Hall) as Hsc.
    assert (Hall' : Forall (fun r => exists other,
              other ∈ db /\ user_id other <> uid /\ pub_id (user r) <> uid /\
              user r = to_public_dict other /\
              match_score me other = Some (score r) /\
              (0 <= score r <= 100)%Z) all).
    { rewrite Forall_forall. intros r Hr.
      apply list_elem_of_lookup in Hr as [n Hn].
      destruct (Forall2_lookup_r _ _ _ _ _ Hsc Hn) as (other & Ho & Hu' & Hs).
      apply list_elem_of_lookup_2, elem_of_others in Ho as [Ho Hne].
      pose proof (match_score_bounds me other (score r) Hs) as Hb.
      exists other. rewrite Hu'. cbn. repeat split; try assumption; try congruence; lia. }
    destruct (py_slice_to_take (sort_desc all) (default 20%Z limit)) as [n ->].
    rewrite Forall_forall in Hall'. rewrite Forall_forall. intros r Hr.
    apply Hall'. rewrite <- (sort_desc_perm all).
    exact (subseteq_take n (sort_desc all) r Hr).
  - intros Hl. rewrite py_slice_to_length.
    assert (H1 : (0 <=? default 20%Z limit)%Z = true) by (apply Z.leb_le; lia).
    rewrite H1. lia.
Qed.

(** *** The user routes *)

Lemma apply_patch_keys (user : User) (new_name : string) (data : Patch) :
  user_id (apply_patch user new_name data) = user_id user /\
  email (apply_patch user new_name data) = email user /\
  password_hash (apply_patch user new_name data) = password_hash user.
Proof.
  unfold apply_patch. destruct (patch_tags data), (patch_interests data); repeat split.
Qed.

Lemma patched_twice {A} (old : A) (entry : option A) :
  patched (patched old entry) entry = patched old entry.
Proof. now destruct entry. Qed.

Lemma apply_patch_twice (user : User) (new_name : string) (data : Patch) :
  apply_patch (apply_patch user new_name data) new_name data =
  apply_patch user new_name data.
Proof.
  unfold apply_patch.
  destruct (patch_tags data), (patch_interests data); cbn;
    now rewrite !patched_twice.
Qed.

Lemma lookup_store (db : list User) (uid : Z) (user user' : User) :
  lookup_user db uid = Some user -> user_id user' = uid ->
  lookup_user (store_user db user') uid = Some user'.
Proof.
  unfold lookup_user, store_user. intros Hf Hid. subst uid.
  induction db as [| row db IH]; [discriminate |].
  cbn in Hf |- *.
  destruct (Z.eqb_spec (user_id row) (user_id user')) as [He | Hne].
  - cbn. now rewrite Z.eqb_refl.
  - cbn. apply Z.eqb_neq in Hne. rewrite Hne. apply IH. exact Hf.
Qed.

Lemma lookup_store_other (db : list User) (uid : Z) (user' : User) :
  user_id user' <> uid ->
  lookup_user (store_user db user') uid = lookup_user db uid.
Proof.
  unfold lookup_user, store_user. intros Hne.
  induction db as [| row db IH]; [reflexivity |]. cbn.
  destruct (Z.eqb_spec (user_id row) (user_id user')) as [He | Hn].
  - apply Z.eqb_neq in Hne. rewrite Hne.
    assert (Hr : (user_id row =? uid)%Z = false) by (apply Z.eqb_neq; lia).
    rewrite Hr. exact IH.
  - destruct (user_id row =? uid)%Z; [reflexivity | exact IH].
Qed.

Lemma store_user_twice (db : list User) (user : User) :
  store_user (store_user db user) user = store_user db user.
Proof.
  unfold store_user. rewrite <- list_fmap_compose. apply list_fmap_ext.
  intros _ row _. unfold compose.
  destruct (Z.eqb_spec (user_id row) (user_id user)) as [He | Hne].
  - now rewrite Z.eqb_refl.
  - apply Z.eqb_neq in Hne. now rewrite Hne.
Qed.

Lemma unique_row (db : list User) (u u' : User) :
  NoDup (user_id <$> db) -> u ∈ db -> u' ∈ db -> user_id u = user_id u' -> u = u'.
Proof.
  induction db as [| row db IH]; intros Hn Hu Hu' He; [set_solver |].
  cbn in Hn. apply NoDup_cons in Hn as [Hrow Hn].
  apply elem_of_cons in Hu as [-> | Hu]; apply elem_of_cons in Hu' as [-> | Hu'].
  - reflexivity.
  - exfalso. apply Hrow. rewrite He. now apply list_elem_of_fmap_2.
  - exfalso. apply Hrow. rewrite <- He. now apply list_elem_of_fmap_2.
  - now apply IH.
Qed.

Lemma store_user_same (db : list User) (user : User) :
  NoDup (user_id <$> db) -> user ∈ db -> store_user db user = db.
Proof.
  intros Hn Hin. unfold store_user. rewrite <- (list_fmap_id db) at 2.
  apply list_fmap_ext. intros i row Hrow. apply list_elem_of_lookup_2 in Hrow.
  destruct (Z.eqb_spec (user_id row) (user_id user)) as [He | Hne]; [| reflexivity].
  symmetry. now apply (unique_row db).
Qed.

Lemma update_user_unfold (db : list User) (uid : Z) (data : Patch) (user : User)
    (new_name : string) :
  lookup_user db uid = Some user ->
  patched (Some (name user)) (patch_name data) = Some new_name ->
  update_user db uid data =
    (UserOk (to_public_dict (apply_patch user new_name data)),
     store_user db (apply_patch user new_name data)).
Proof. intros Hl Hn. unfold update_user. now rewrite Hl, Hn. Qed.



(** X18. [update_user] never changes the identity of a row: in a table
    with unique ids, the ids, emails and password hashes of all rows are
    the same before and after the request, in the same order, and every
    row but the one with the id of the request is unchanged. *)
Theorem update_user_frame (db : list User) (uid : Z) (data : Patch) :
  NoDup (user_id <$> db) ->
  let db' := (update_user db uid data).2 in
  user_id <$> db' = user_id <$> db /\
  email <$> db' = email <$> db /\
  password_hash <$> db' = password_hash <$> db /\
  NoDup (user_id <$> db') /\
  Forall2 (fun row row' => user_id row <> uid -> row' = row) db db'.
Proof.
  intros Hn db'. subst db'. unfold update_user.
  destruct (lookup_user db uid) as [user |] eqn:Hl.
  2: { cbn. repeat split; try assumption. apply Forall2_same_length_lookup_2;
         [reflexivity |]. intros i x y Hx Hy _. congruence. }
  destruct (patched (Some (name user)) (patch_name data)) as [new_name |].
  2: { cbn. repeat split; try assumption. apply Forall2_same_length_lookup_2;
         [reflexivity |]. intros i x y Hx Hy _. congruence. }
  cbn [snd]. destruct (lookup_user_Some db uid user Hl) as [Hin Hid].
  destruct (apply_patch_keys user new_name data) as (Hk1 & Hk2 & Hk3).
  set (user' := apply_patch user new_name data) in *.
  assert (Hrow : forall row, row ∈ db -> user_id row = user_id user' -> row = user).
  { intros row Hr He. apply (unique_row db); [assumption .. | congruence]. }
  assert (Hids : user_id <$> store_user db user' = user_id <$> db).
  { unfold store_user. rewrite <- list_fmap_compose. apply list_fmap_ext.
    intros _ row _. unfold compose.
    destruct (Z.eqb_spec (user_id row) (user_id user')); congruence. }
  split; [exact Hids |]. split; [| split; [| split]].
  - unfold store_user. rewrite <- list_fmap_compose. apply list_fmap_ext.
    intros i row Hr. apply list_elem_of_lookup_2 in Hr. unfold compose.
    destruct (Z.eqb_spec (user_id row) (user_id user')) as [He | Hne]; [| reflexivity].
    rewrite (Hrow row Hr He). exact Hk2.
  - unfold store_user. rewrite <- list_fmap_compose. apply list_fmap_ext.
    intros i row Hr. apply list_elem_of_lookup_2 in Hr. unfold compose.
    destruct (Z.eqb_spec (user_id row) (user_id user')) as [He | Hne]; [| reflexivity].
    rewrite (Hrow row Hr He). exact Hk3.
  - now rewrite Hids.
  - unfold store_user. apply Forall2_fmap_r, Forall_Forall2_diag, Forall_forall.
    intros row _ Hne.
    destruct (Z.eqb_spec (user_id row) (user_id user')) as [He | _]; [| reflexivity].
    congruence.
Qed.

(** X19. [update_user] is a partial update: a field whose key is absent
    from the body keeps its value, a field whose key is present takes
    the value of the body, and tags or interests given as a null or
    otherwise false value become the empty list.  Id and email are never
    changed. *)
Theorem update_user_fields (db : list User) (uid : Z) (data : Patch) (user : User) :
  lookup_user db uid = Some user -> patch_name data <> Some None ->
  exists p : PublicUser,
    (update_user db uid data).1 = UserOk p /\
    pub_id p = uid /\ pub_email p = email user /\
    pub_name p = match patch_name data with Some (Some s) => s | _ => name user end /\
    pub_year p = patched (year user) (patch_year data) /\
    pub_department p = patched (department user) (patch_department data) /\
    pub_bio p = patched (bio user) (patch_bio data) /\
    pub_personality p = patched (personality user) (patch_personality data) /\
    pub_tags p = match patch_tags data with
                 | Some v => py_or v (JList [])
                 | None => tags user
                 end /\
    pub_interests p = match patch_interests data with
                      | Some v => py_or v (JList [])
                      | None => interests user
                      end.
Proof.
  intros Hl Hname. destruct (lookup_user_Some db uid user Hl) as [_ Hid].
  unfold update_user. rewrite Hl.
  destruct (patch_name data) as [[s |] |]; [| congruence |]; cbn [patched fst];
    eexists; (split; [reflexivity |]); unfold apply_patch;
    destruct (patch_tags data), (patch_interests data); cbn; repeat split; assumption.
Qed.

(** X20. [update_user] is idempotent: sending the same body a second
    time gives the same answer and leaves the table as the first request
    left it. *)
Theorem update_user_idempotent (db : list User) (uid : Z) (data : Patch) :
  update_user (update_user db uid data).2 uid data = update_user db uid data.
Proof.
  unfold update_user at 2 3. destruct (lookup_user db uid) as [user |] eqn:Hl.
  2: { cbn. unfold update_user. now rewrite Hl. }
  destruct (patched (Some (name user)) (patch_name data)) as [new_name |] eqn:Hn.
  2: { cbn. unfold update_user. now rewrite Hl, Hn. }
  cbn [snd]. destruct (lookup_user_Some db uid user Hl) as [_ Hid].
  destruct (apply_patch_keys user new_name data) as (Hk1 & _).
  set (user' := apply_patch user new_name data) in *.
  assert (Hl' : lookup_user (store_user db user') uid = Some user').
  { apply (lookup_store db uid user); [exact Hl | congruence]. }
  assert (Hn' : patched (Some (name user')) (patch_name data) = Some new_name).
  { destruct (patch_name data) as [[s |] |]; cbn in Hn |- *; try congruence.
    injection Hn as <-. subst user'. unfold apply_patch.
    destruct (patch_tags data), (patch_interests data); reflexivity. }
  rewrite (update_user_unfold _ uid data user' new_name Hl' Hn').
  subst user'. now rewrite apply_patch_twice, store_user_twice.
Qed.

(** X21. What [update_user] answers is what is stored: after a
    successful update, [get_user] with the same id returns the profile
    the update returned. *)
Theorem get_user_after_update (db db' : list User) (uid : Z) (data : Patch)
    (p : PublicUser) :
  update_user db uid data = (UserOk p, db') -> get_user db' uid = UserOk p.
Proof.
  unfold update_user. destruct (lookup_user db uid) as [user |] eqn:Hl; [| discriminate].
  destruct (patched (Some (name user)) (patch_name data)) as [new_name |];
    [| discriminate].
  intros [= <- <-]. destruct (lookup_user_Some db uid user Hl) as [_ Hid].
  destruct (apply_patch_keys user new_name data) as (Hk1 & _).
  unfold get_user.
  rewrite (lookup_store db uid user (apply_patch user new_name data) Hl); [reflexivity |].
  congruence.
Qed.

(** X22. A body without any of the seven keys changes nothing: in a
    table with unique ids, [update_user] with the empty object answers
    as [get_user] does and leaves the table as it was. *)
Theorem update_user_empty (db : list User) (uid : Z) :
  NoDup (user_id <$> db) ->
  update_user db uid empty_patch = (get_user db uid, db).
Proof.
  intros Hn. unfold get_user.
  destruct (lookup_user db uid) as [user |] eqn:Hl.
  - destruct (lookup_user_Some db uid user Hl) as [Hin _].
    rewrite (update_user_unfold db uid empty_patch user (name user) Hl eq_refl).
    assert (He : apply_patch user (name user) empty_patch = user) by now destruct user.
    rewrite He. now rewrite (store_user_same db user Hn Hin).
  - unfold update_user. now rewrite Hl.
Qed.

(** X23. One profile can break matching for everybody else: after an
    update that sets the tags of a user to a value that cannot be scored
    (a number, [True], a list with an item that is no string),
    [/api/match] answers 500 for every other user of the table and every
    limit. *)
Theorem update_breaks_matching (db : list User) (uid other : Z) (data : Patch)
    (v : json) (limit : option Z) :
  is_Some (lookup_user db uid) -> is_Some (lookup_user db other) ->
  other <> uid -> other <> 0%Z ->
  patch_name data <> Some None -> patch_tags data = Some v -> scorable v = false ->
  match_for_user (update_user db uid data).2 (Some other) limit = Error500.
Proof.
  intros [user Hl] [me Hme] Hne H0 Hname Htags Hv.
  destruct (lookup_user_Some db uid user Hl) as [Hin Hid].
  assert (Hnn : exists new_name, patched (Some (name user)) (patch_name data) = Some new_name).
  { destruct (patch_name data) as [[s |] |]; cbn; [eauto | congruence | eauto]. }
  destruct Hnn as [new_name Hnn].
  rewrite (update_user_unfold db uid data user new_name Hl Hnn). cbn [snd].
  destruct (apply_patch_keys user new_name data) as (Hk1 & _).
  set (user' := apply_patch user new_name data) in *.
  assert (Ht : tags user' = v).
  { subst user'. unfold apply_patch. rewrite Htags.
    assert (Hor : py_or v (JList []) = v).
    { unfold py_or. destruct v as [| b | x | s | l | kvs]; try discriminate.
      - destruct b; [reflexivity | discriminate].
      - cbn in Hv |- *. now rewrite Hv.
      - destruct l; [discriminate | reflexivity]. }
    destruct (patch_interests data); cbn; now rewrite Hor. }
  rewrite (match_for_user_unfold _ other limit H0).
  rewrite lookup_store_other, Hme by congruence.
  destruct (lookup_user_Some db other me Hme) as [_ Hmid].
  assert (Hr : rank me
            (List.filter (fun u => negb (user_id u =? user_id me)%Z)
                         (store_user db user'))
            (default 20%Z limit) = None).
  { apply rank_None_iff, score_all_None_iff. exists user'. split.
    - apply elem_of_others. split; [| congruence].
      unfold store_user. apply list_elem_of_fmap. exists user.
      split; [| exact Hin]. assert (He : (user_id user =? user_id user')%Z = true)
        by (apply Z.eqb_eq; congruence). now rewrite He.
    - apply match_score_raises_l. apply eq_None_not_Some.
      rewrite jaccard_similarity_is_Some, Ht, Hv. intros [_ [=]]. }
  now rewrite Hr.
Qed.

End EngineFacts.

(** ** The engine on sample profiles *)

Import Binary64.

(** The operations of [Binary64] agree with the IEEE 754 reference
    implementation of the standard library. *)
Example literals_reference :
  SF2Q Reference.sf_0_6 = Some lit_0_6 /\
  SF2Q Reference.sf_0_4 = Some lit_0_4 /\
  SF2Q Reference.sf_0_05 = Some lit_0_05 /\
  SF2Q Reference.sf_100 = Some (float_of_int 100).
Proof. vm_compute. repeat split. Qed.

Example int_truediv_reference :
  SF2Q (Reference.sf_truediv 1 3) = Some (int_truediv 1 3) /\
  SF2Q (Reference.sf_truediv 7 1234567) = Some (int_truediv 7 1234567) /\
  SF2Q (Reference.sf_truediv 999 1000) = Some (int_truediv 999 1000).
Proof. vm_compute. repeat split. Qed.

Example fadd_reference :
  SF2Q (SpecFloat.SFadd 53 1024 Reference.sf_0_6 (Reference.sf_truediv 1 3))
  = Some (fadd lit_0_6 (int_truediv 1 3)).
Proof. vm_compute. reflexivity. Qed.

Example score_reference :
  SF2Q (Reference.sf_score (Reference.sf_truediv 1 8) (SpecFloat.S754_zero false)
                           (SpecFloat.S754_zero false))
  = Some (fmul (fadd (fadd (fmul lit_0_6 (int_truediv 1 8)) (fmul lit_0_4 0)) 0)
               (float_of_int 100)) /\
  SF2Q (Reference.sf_score (Reference.sf_truediv 1 3) (Reference.sf_truediv 2 7)
                           Reference.sf_0_05)
  = Some (fmul (fadd (fadd (fmul lit_0_6 (int_truediv 1 3))
                           (fmul lit_0_4 (int_truediv 2 7))) lit_0_05)
               (float_of_int 100)) /\
  SF2Q (Reference.sf_score (Reference.sf_truediv 1 1) (Reference.sf_truediv 1 1)
                           Reference.sf_0_05)
  = Some (fmul (fadd (fadd (fmul lit_0_6 (int_truediv 1 1))
                           (fmul lit_0_4 (int_truediv 1 1))) lit_0_05)
               (float_of_int 100)).
Proof. vm_compute. repeat split. Qed.

Example literals :
  lit_0_6 = (5404319552844595 # 9007199254740992)%Q /\
  lit_0_4 = (3602879701896397 # 9007199254740992)%Q /\
  lit_0_05 = (3602879701896397 # 72057594037927936)%Q.
Proof. vm_compute. repeat split. Qed.

(** The scenarios of the design document. *)
Example scenario_A : match_score alice bob = Some 50%Z.
Proof. vm_compute. reflexivity. Qed.

Example scenario_B :
  match_score (sample_user 1 ["Gym"] ["AI"] (Some "INTJ"))
              (sample_user 2 ["Gym"] ["AI"] (Some "INTJ")) = Some 100%Z.
Proof. vm_compute. reflexivity. Qed.

Example scenario_C :
  match_score (sample_user 1 ["Gym"] ["AI"] None)
              (sample_user 2 ["Chess"] ["Poetry"] None) = Some 0%Z.
Proof. vm_compute. reflexivity. Qed.

Example scenario_D :
  match_score (sample_user 1 [] [] None) bob = Some 0%Z.
Proof. vm_compute. reflexivity. Qed.

Example similarity_ignores_case :
  jaccard_similarity (strs ["AI"]) (strs ["ai"]) = Some 1%Q.
Proof. vm_compute. reflexivity. Qed.

Example bonus_is_case_sensitive :
  personality_bonus (sample_user 1 [] [] (Some "INTJ"))
                    (sample_user 2 [] [] (Some "intj")) = 0%Q /\
  personality_bonus (sample_user 1 [] [] (Some "INTJ"))
                    (sample_user 2 [] [] (Some "INTJ")) = lit_0_05.
Proof. split; reflexivity. Qed.

(** One tag of eight in common: the product is exactly 7.5 and rounds
    to the even 8. *)
Example tie_to_even :
  match_score (sample_user 1 ["a"; "b"; "c"; "d"; "e"; "f"; "g"; "h"] [] None)
              (sample_user 2 ["a"] [] None) = Some 8%Z.
Proof. vm_compute. reflexivity. Qed.

Example ranking_of_samples :
  (fun r => (pub_id (user r), score r)) <$> default [] (rank alice [bob; carol; dave] 20)
  = [(3, 60); (2, 50); (4, 50)]%Z.
Proof. vm_compute. reflexivity. Qed.

(** *** Witnesses and counterexamples *)

Lemma match_score_in_0_100_witness :
  well_typed alice = true /\ well_typed bob = true /\
  exists s : Z, match_score alice bob = Some s /\ (0 <= s <= 100)%Z.
Proof.
  split; [reflexivity |]. split; [reflexivity |].
  apply (match_score_in_0_100 alice bob); reflexivity.
Defined.

Lemma rank_sorted_stable_witness :
  exists all results : list MatchResult,
    score_all alice [bob; carol; dave] = Some all /\
    Forall2 (scored alice) [bob; carol; dave] all /\
    rank alice [bob; carol; dave] 2 = Some results /\
    StronglySorted by_score_desc results /\
    forall s : Z,
      filter (fun r => score r = s) results `prefix_of`
      filter (fun r => score r = s) all.
Proof.
  apply (rank_sorted_stable alice [bob; carol; dave] 2);
    [reflexivity | repeat constructor].
Defined.

Lemma rank_length_witness :
  (0 < 2)%Z /\
  exists all results : list MatchResult,
    score_all alice [bob; carol; dave] = Some all /\
    Forall2 (scored alice) [bob; carol; dave] all /\
    sort_desc all ≡ₚ all /\
    rank alice [bob; carol; dave] 2 = Some results /\
    results = take (Z.to_nat 2) (sort_desc all) /\
    length results = Nat.min (Z.to_nat 2) (length [bob; carol; dave]).
Proof.
  split; [lia |].
  apply (rank_length alice [bob; carol; dave] 2);
    [lia | reflexivity | repeat constructor].
Defined.

Lemma empty_personality_no_bonus_witness :
  personality erin = Some ""%string /\ personality frank = Some ""%string /\
  personality_bonus erin frank = 0%Q.
Proof.
  split; [reflexivity |]. split; [reflexivity |].
  apply (empty_personality_no_bonus erin frank); reflexivity.
Defined.

(** C4 fails for a negative limit: [results[:-1]] drops the last entry
    only, so two of three candidates are returned. *)
Lemma rank_negative_limit_not_empty :
  rank alice [bob; carol; dave] (-1) =
    Some [ {| user := to_public_dict carol; score := 60 |};
           {| user := to_public_dict bob; score := 50 |} ] /\
  rank alice [bob; carol; dave] (-1) <> Some [].
Proof. split; [vm_compute; reflexivity | vm_compute; discriminate]. Qed.

Lemma rank_nonpositive_limit_witness :
  (-1 <= 0)%Z /\
  exists all results : list MatchResult,
    score_all alice [bob; carol; dave] = Some all /\
    rank alice [bob; carol; dave] (-1) = Some results /\
    results = (if (-1 =? 0)%Z then []
               else take (length [bob; carol; dave] - Z.to_nat (- -1)) (sort_desc all)) /\
    (results = [] <->
     (-1)%Z = 0%Z \/ (Z.of_nat (length [bob; carol; dave]) <= - -1)%Z).
Proof.
  split; [lia |].
  apply (rank_nonpositive_limit alice [bob; carol; dave] (-1));
    [lia | reflexivity | repeat constructor].
Defined.

(** C5 fails on read-back: the list comes back as it was stored, with
    its duplicates, before and after lower-casing. *)
Lemma read_back_keeps_duplicates :
  pub_tags (to_public_dict (set_tags alice (strs ["AI"; "ai"; "AI"])))
    = strs ["AI"; "ai"; "AI"] /\
  ~ NoDup ["AI"; "ai"; "AI"]%string /\
  ~ NoDup (str_lower <$> ["AI"; "ai"; "AI"]%string).
Proof.
  split; [reflexivity |]. split.
  - intros Hn. apply NoDup_cons in Hn as [Hn _]. apply Hn. set_solver.
  - intros Hn. apply NoDup_cons in Hn as [Hn _]. apply Hn. vm_compute. left.
Qed.

(** C10 fails for a column that holds JSON of another shape: after
    [PUT {"tags": 5}] the accessor returns the number, and after
    [PUT {"tags": [1]}] a list that holds no string; scoring such a
    profile raises. *)
Lemma tags_need_not_be_a_string_list :
  tags (set_tags alice (JNum 5)) = JNum 5 /\
  (forall l, tags (set_tags alice (JNum 5)) <> strs l) /\
  match_score (set_tags alice (JNum 5)) bob = None /\
  tags (set_tags alice (JList [JNum 1])) = JList [JNum 1] /\
  (forall l, tags (set_tags alice (JList [JNum 1])) <> strs l) /\
  match_score (set_tags alice (JList [JNum 1])) bob = None.
Proof.
  split; [reflexivity |]. split; [intros l; discriminate |].
  split; [vm_compute; reflexivity |]. split; [reflexivity |].
  split; [| vm_compute; reflexivity].
  intros [| s l]; discriminate.
Qed.

Lemma accessors_total_witness :
  well_typed alice = true /\ well_typed bob = true /\
  is_Some (match_score alice bob).
Proof.
  split; [reflexivity |]. split; [reflexivity |].
  apply (accessors_total alice bob); reflexivity.
Defined.

(** *** Witnesses of the further properties *)

Lemma campus_ids_unique : NoDup (user_id <$> campus).
Proof. apply (bool_decide_unpack _). vm_compute. exact I. Defined.

Lemma sample_label_set (l : list string) (L : list string) :
  str_lower <$> l = L -> Spec.label_set l = list_to_set L.
Proof. intros <-. reflexivity. Qed.

Lemma sample_sets :
  lowered_set (tags grace) = Some gym_chess /\
  lowered_set (tags heidi) = Some gym_chess /\
  lowered_set (interests grace) = Some only_ai /\
  lowered_set (interests heidi) = Some only_ai /\
  lowered_set (tags ivan) = Some only_music /\
  lowered_set (interests ivan) = Some only_art /\
  lowered_set (tags alice) = Some study_sports /\
  lowered_set (tags karl) = Some gym_chess /\
  lowered_set (interests karl) = Some only_art.
Proof.
  assert (Hh : Spec.label_set ["chess"; "GYM"; "gym"] = gym_chess).
  { unfold gym_chess.
    rewrite (sample_label_set ["chess"; "GYM"; "gym"] ["chess"; "gym"; "gym"] eq_refl).
    rewrite (sample_label_set ["Gym"; "Chess"] ["gym"; "chess"] eq_refl).
    set_solver. }
  assert (Hk : Spec.label_set ["gym"; "CHESS"] = gym_chess).
  { unfold gym_chess.
    rewrite (sample_label_set ["gym"; "CHESS"] ["gym"; "chess"] eq_refl).
    rewrite (sample_label_set ["Gym"; "Chess"] ["gym"; "chess"] eq_refl).
    reflexivity. }
  assert (Ha : Spec.label_set ["ai"] = only_ai).
  { unfold only_ai.
    rewrite (sample_label_set ["ai"] ["ai"] eq_refl).
    rewrite (sample_label_set ["AI"] ["ai"] eq_refl). reflexivity. }
  repeat split;
    first [ apply lowered_set_strs
          | rewrite <- Hh; apply lowered_set_strs
          | rewrite <- Hk; apply lowered_set_strs
          | rewrite <- Ha; apply lowered_set_strs ].
Qed.

Lemma sample_sets_apart :
  gym_chess <> ∅ /\ only_ai <> ∅ /\ gym_chess ## only_music /\
  only_ai ## only_art /\ study_sports ## only_music.
Proof.
  unfold gym_chess, only_ai, only_music, only_art, study_sports.
  rewrite (sample_label_set ["Gym"; "Chess"] ["gym"; "chess"] eq_refl).
  rewrite (sample_label_set ["AI"] ["ai"] eq_refl).
  rewrite (sample_label_set ["Music"] ["music"] eq_refl).
  rewrite (sample_label_set ["Art"] ["art"] eq_refl).
  rewrite (sample_label_set ["Study Buddy"; "Sports Partner"]
             ["study buddy"; "sports partner"] eq_refl).
  repeat split; set_solver.
Qed.

Lemma jaccard_similarity_equal_sets_witness :
  lowered_set (tags grace) = Some gym_chess /\
  lowered_set (tags heidi) = Some gym_chess /\
  gym_chess <> ∅ /\
  jaccard_similarity (tags grace) (tags heidi) = Some 1%Q /\
  jaccard_similarity (tags grace) (tags grace) = Some 1%Q.
Proof.
  pose proof (proj1 sample_sets) as H1.
  pose proof (proj1 (proj2 sample_sets)) as H2.
  pose proof (proj1 sample_sets_apart) as H3.
  split; [exact H1 |]. split; [exact H2 |]. split; [exact H3 |].
  exact (jaccard_similarity_equal_sets (tags grace) (tags heidi) gym_chess H1 H2 H3).
Defined.

Lemma jaccard_similarity_labels_only_witness :
  (forall s : string,
     s ∈ str_lower <$> ["Gym"; "Chess"]%string <->
     s ∈ str_lower <$> ["chess"; "GYM"; "gym"]%string) /\
  jaccard_similarity (strs ["Gym"; "Chess"]) (tags karl) =
    jaccard_similarity (strs ["chess"; "GYM"; "gym"]) (tags karl) /\
  jaccard_similarity (tags karl) (strs ["Gym"; "Chess"]) =
    jaccard_similarity (tags karl) (strs ["chess"; "GYM"; "gym"]).
Proof.
  assert (Hs : forall s : string,
             s ∈ str_lower <$> ["Gym"; "Chess"]%string <->
             s ∈ str_lower <$> ["chess"; "GYM"; "gym"]%string).
  { intros s. cbn. set_solver. }
  split; [exact Hs |].
  exact (jaccard_similarity_labels_only _ _ (tags karl) Hs).
Defined.

Lemma jaccard_similarity_disjoint_witness :
  lowered_set (tags alice) = Some study_sports /\
  lowered_set (tags ivan) = Some only_music /\
  study_sports ## only_music /\
  jaccard_similarity (tags alice) (tags ivan) = Some 0%Q /\
  jaccard_similarity JNull (tags ivan) = Some 0%Q /\
  jaccard_similarity (tags ivan) JNull = Some 0%Q.
Proof.
  pose proof (proj1 (proj2 (proj2 (proj2 (proj2 (proj2 (proj2 sample_sets))))))) as H1.
  pose proof (proj1 (proj2 (proj2 (proj2 (proj2 sample_sets))))) as H2.
  pose proof (proj2 (proj2 (proj2 (proj2 sample_sets_apart)))) as H3.
  split; [exact H1 |]. split; [exact H2 |]. split; [exact H3 |].
  exact (jaccard_similarity_disjoint _ _ _ _ H1 H2 H3).
Defined.

Lemma match_score_identical_witness :
  lowered_set (tags grace) = Some gym_chess /\
  lowered_set (tags heidi) = Some gym_chess /\ gym_chess <> ∅ /\
  lowered_set (interests grace) = Some only_ai /\
  lowered_set (interests heidi) = Some only_ai /\ only_ai <> ∅ /\
  match_score grace heidi = Some 100%Z.
Proof.
  pose proof (proj1 sample_sets) as H1.
  pose proof (proj1 (proj2 sample_sets)) as H2.
  pose proof (proj1 sample_sets_apart) as H3.
  pose proof (proj1 (proj2 (proj2 sample_sets))) as H4.
  pose proof (proj1 (proj2 (proj2 (proj2 sample_sets)))) as H5.
  pose proof (proj1 (proj2 sample_sets_apart)) as H6.
  repeat (split; [assumption |]).
  exact (match_score_identical grace heidi gym_chess only_ai H1 H2 H3 H4 H5 H6).
Defined.

Lemma match_score_no_overlap_witness :
  lowered_set (tags grace) = Some gym_chess /\
  lowered_set (tags ivan) = Some only_music /\ gym_chess ## only_music /\
  lowered_set (interests grace) = Some only_ai /\
  lowered_set (interests ivan) = Some only_art /\ only_ai ## only_art /\
  match_score grace ivan =
    Some (if bool_decide (Spec.present (personality grace) /\
                          Spec.present (personality ivan) /\
                          personality grace = personality ivan)
          then 5 else 0)%Z.
Proof.
  pose proof (proj1 sample_sets) as H1.
  pose proof (proj1 (proj2 (proj2 (proj2 (proj2 sample_sets))))) as H2.
  pose proof (proj1 (proj2 (proj2 sample_sets_apart))) as H3.
  pose proof (proj1 (proj2 (proj2 sample_sets))) as H4.
  pose proof (proj1 (proj2 (proj2 (proj2 (proj2 (proj2 sample_sets)))))) as H5.
  pose proof (proj1 (proj2 (proj2 (proj2 sample_sets_apart)))) as H6.
  repeat (split; [assumption |]).
  exact (match_score_no_overlap grace ivan _ _ _ _ H1 H2 H3 H4 H5 H6).
Defined.

Lemma match_score_weights_witness :
  gym_chess <> ∅ /\ only_ai ## only_art /\
  match_score grace karl = Some 60%Z.
Proof.
  pose proof (proj1 sample_sets_apart) as H1.
  pose proof (proj1 (proj2 (proj2 (proj2 sample_sets_apart)))) as H2.
  split; [exact H1 |]. split; [exact H2 |].
  apply (proj1 (match_score_weights grace karl gym_chess only_ai only_art H1 H2));
    apply sample_sets.
Defined.

Lemma match_score_monotone_witness :
  jaccard_similarity (tags alice) (tags bob) = Some (1 # 2)%Q /\
  jaccard_similarity (tags alice) (tags judy) = Some 1%Q /\
  jaccard_similarity (interests alice) (interests bob) = Some (1 # 2)%Q /\
  jaccard_similarity (interests alice) (interests judy) = Some (1 # 2)%Q /\
  ((1 # 2) <= 1)%Q /\ ((1 # 2) <= (1 # 2))%Q /\
  (personality_bonus alice bob <= personality_bonus alice judy)%Q /\
  exists s s' : Z,
    match_score alice bob = Some s /\ match_score alice judy = Some s' /\ (s <= s')%Z.
Proof.
  assert (H1 : jaccard_similarity (tags alice) (tags bob) = Some (1 # 2)%Q)
    by (vm_compute; reflexivity).
  assert (H2 : jaccard_similarity (tags alice) (tags judy) = Some 1%Q)
    by (vm_compute; reflexivity).
  assert (H3 : jaccard_similarity (interests alice) (interests bob) = Some (1 # 2)%Q)
    by (vm_compute; reflexivity).
  assert (H4 : jaccard_similarity (interests alice) (interests judy) = Some (1 # 2)%Q)
    by (vm_compute; reflexivity).
  assert (H5 : ((1 # 2) <= 1)%Q) by (apply Qle_bool_imp_le; reflexivity).
  assert (H6 : ((1 # 2) <= (1 # 2))%Q) by (apply Qle_bool_imp_le; reflexivity).
  assert (H7 : (personality_bonus alice bob <= personality_bonus alice judy)%Q)
    by (apply Qle_bool_imp_le; reflexivity).
  repeat (split; [assumption |]).
  exact (match_score_monotone alice bob judy _ _ _ _ H1 H2 H3 H4 H5 H6 H7).
Defined.

Lemma rank_limit_prefix_witness :
  (0 <= 2 <= 3)%Z /\
  rank alice [bob; carol; dave] 3 = Some ranked_samples /\
  rank alice [bob; carol; dave] 2 = Some (take (Z.to_nat 2) ranked_samples).
Proof.
  assert (H1 : (0 <= 2 <= 3)%Z) by lia.
  assert (H2 : rank alice [bob; carol; dave] 3 = Some ranked_samples)
    by (vm_compute; reflexivity).
  split; [exact H1 |]. split; [exact H2 |].
  exact (rank_limit_prefix alice [bob; carol; dave] 2 3 ranked_samples H1 H2).
Defined.

Lemma rank_keeps_the_best_witness :
  score_all alice [bob; carol; dave] = Some scored_samples /\
  exists kept dropped : list MatchResult,
    rank alice [bob; carol; dave] 1 = Some kept /\
    kept ++ dropped ≡ₚ scored_samples /\
    forall r r', r ∈ kept -> r' ∈ dropped -> (score r' <= score r)%Z.
Proof.
  assert (H1 : score_all alice [bob; carol; dave] = Some scored_samples)
    by (vm_compute; reflexivity).
  split; [exact H1 |].
  exact (rank_keeps_the_best alice [bob; carol; dave] 1 scored_samples H1).
Defined.

Lemma rank_complete_witness :
  (Z.of_nat (length [bob; carol; dave]) <= 20)%Z /\
  rank alice [bob; carol; dave] 20 = Some ranked_samples /\
  user <$> ranked_samples ≡ₚ to_public_dict <$> [bob; carol; dave] /\
  length ranked_samples = length [bob; carol; dave].
Proof.
  assert (H1 : (Z.of_nat (length [bob; carol; dave]) <= 20)%Z) by (cbn; lia).
  assert (H2 : rank alice [bob; carol; dave] 20 = Some ranked_samples)
    by (vm_compute; reflexivity).
  split; [exact H1 |]. split; [exact H2 |].
  exact (rank_complete alice [bob; carol; dave] 20 ranked_samples H1 H2).
Defined.

Lemma match_for_user_results_witness :
  match_for_user campus (Some 1%Z) None = Ok200 ranked_samples /\
  exists me : User,
    lookup_user campus 1 = Some me /\
    Forall (fun r => exists other,
              other ∈ campus /\ user_id other <> 1%Z /\ pub_id (user r) <> 1%Z /\
              user r = to_public_dict other /\
              match_score me other = Some (score r) /\
              (0 <= score r <= 100)%Z) ranked_samples /\
    ((0 <= default 20%Z None)%Z ->
     (length ranked_samples <= Z.to_nat (default 20%Z None))%nat).
Proof.
  assert (H1 : match_for_user campus (Some 1%Z) None = Ok200 ranked_samples)
    by (vm_compute; reflexivity).
  split; [exact H1 |].
  exact (match_for_user_results campus 1 None ranked_samples H1).
Defined.

Lemma update_user_frame_witness :
  NoDup (user_id <$> campus) /\
  let db' := (update_user campus 2 (tags_patch (strs ["Chess"]))).2 in
  user_id <$> db' = user_id <$> campus /\
  email <$> db' = email <$> campus /\
  password_hash <$> db' = password_hash <$> campus /\
  NoDup (user_id <$> db') /\
  Forall2 (fun row row' => user_id row <> 2%Z -> row' = row) campus db'.
Proof.
  split; [exact campus_ids_unique |].
  exact (update_user_frame campus 2 (tags_patch (strs ["Chess"])) campus_ids_unique).
Defined.

Lemma update_user_fields_witness :
  lookup_user campus 2 = Some bob /\
  patch_name (bio_patch (Some "Chess and football"%string)) <> Some None /\
  exists p : PublicUser,
    (update_user campus 2 (bio_patch (Some "Chess and football"%string))).1 = UserOk p /\
    pub_bio p = Some "Chess and football"%string /\
    pub_tags p = tags bob /\ pub_name p = name bob.
Proof.
  assert (H1 : lookup_user campus 2 = Some bob) by reflexivity.
  assert (H2 : patch_name (bio_patch (Some "Chess and football"%string)) <> Some None)
    by discriminate.
  split; [exact H1 |]. split; [exact H2 |].
  destruct (update_user_fields campus 2 _ bob H1 H2)
    as (p & Hp & _ & _ & Hn & _ & _ & Hb & _ & Ht & _).
  exists p. repeat split; assumption.
Defined.

Lemma get_user_after_update_witness :
  update_user campus 2 (tags_patch (strs ["Chess"])) =
    (UserOk (to_public_dict (set_tags bob (strs ["Chess"]))),
     [alice; set_tags bob (strs ["Chess"]); carol; dave]) /\
  get_user [alice; set_tags bob (strs ["Chess"]); carol; dave] 2 =
    UserOk (to_public_dict (set_tags bob (strs ["Chess"]))).
Proof.
  assert (H1 : update_user campus 2 (tags_patch (strs ["Chess"])) =
               (UserOk (to_public_dict (set_tags bob (strs ["Chess"]))),
                [alice; set_tags bob (strs ["Chess"]); carol; dave]))
    by reflexivity.
  split; [exact H1 |].
  exact (get_user_after_update campus _ 2 _ _ H1).
Defined.

Lemma update_user_empty_witness :
  NoDup (user_id <$> campus) /\
  update_user campus 3 empty_patch = (get_user campus 3, campus).
Proof.
  split; [exact campus_ids_unique |].
  exact (update_user_empty campus 3 campus_ids_unique).
Defined.

Lemma update_breaks_matching_witness :
  is_Some (lookup_user campus 2) /\ is_Some (lookup_user campus 1) /\
  1%Z <> 2%Z /\ 1%Z <> 0%Z /\
  patch_name (tags_patch (JNum 5)) <> Some None /\
  patch_tags (tags_patch (JNum 5)) = Some (JNum 5) /\
  scorable (JNum 5) = false /\
  match_for_user (update_user campus 2 (tags_patch (JNum 5))).2 (Some 1%Z) None
    = Error500.
Proof.
  assert (H1 : is_Some (lookup_user campus 2)) by (eexists; reflexivity).
  assert (H2 : is_Some (lookup_user campus 1)) by (eexists; reflexivity).
  assert (H3 : 1%Z <> 2%Z) by lia.
  assert (H4 : 1%Z <> 0%Z) by lia.
  assert (H5 : patch_name (tags_patch (JNum 5)) <> Some None) by discriminate.
  assert (H6 : patch_tags (tags_patch (JNum 5)) = Some (JNum 5)) by reflexivity.
  assert (H7 : scorable (JNum 5) = false) by reflexivity.
  repeat (split; [assumption |]).
  exact (update_breaks_matching campus 2 1 _ (JNum 5) None H1 H2 H3 H4 H5 H6 H7).
Defined.
